(** * Product comparison endpoint: merge engine, fallbacks and orchestration

    A shallow embedding of [app/api/compare-products/route.ts].

    - JavaScript strings are byte strings ([string]); lower-casing and
      white-space tests act on ASCII, exact string equality is Leibniz
      equality.
    - A JavaScript [Set] of strings is an insertion-ordered list without
      repetition; a plain object used as a string-to-string record is an
      insertion-ordered association list with unique keys (the order in
      which [Object.entries] lists ordinary string keys).
    - A field of a scraped record that may be [undefined] is an [option].
    - The module-level logger, [Math.random], [process.env] and the opaque
      collaborators (scrapers, language model) live in an explicit [World]
      that every effectful function threads. *)

From Stdlib Require Import QArith Qround Lqa.
From stdpp Require Import gmap strings list fin_maps pretty.

#[local] Set Warnings "-clear-no-such-hyp,-register-all".

(* ================================================================== *)
(** * The program *)
(* ================================================================== *)

(** ** Data model *)

(** A string-keyed object with string values, in property order. *)
Abbreviation Obj := (list (string * string)).

(** A record as a scraper (or the fallback generator) hands it over: every
    property may be missing. *)
Record PartialRecord := {
  p_name : option string;
  p_price : option string;
  p_rating : option string;
  p_features : option (list string);
  p_description : option string;
  p_availability : option string;
  p_images : option (list string);
  p_specifications : option Obj;
}.

(** The object literal [merged] of [mergeProductData]: every property set. *)
Record ProductRecord := {
  name : string;
  price : string;
  rating : string;
  features : list string;
  description : string;
  availability : string;
  images : list string;
  specifications : Obj;
}.

(** ** JavaScript primitives used by the merge *)

(** Truthiness of a string: only the empty string is falsy. *)
Definition str_truthy (s : string) : bool := negb (String.eqb s "").

(** Truthiness of a possibly undefined string property. *)
Definition truthy (v : option string) : bool :=
  match v with
  | Some s => str_truthy s
  | None => false
  end.

(** [Set.prototype.add]: a value already present (same string) is ignored,
    a new one goes to the end of the insertion order. *)
Definition Set_add (s : list string) (x : string) : list string :=
  if decide (x ∈ s) then s else s ++ [x].

(** [new Set(iterable)], then spread back into an array. *)
Definition new_Set (l : list string) : list string := foldl Set_add [] l.

(** Defining property [k] on an object: an existing key keeps its position
    and takes the new value, a new key is appended. *)
Fixpoint obj_set (o : Obj) (k v : string) : Obj :=
  match o with
  | [] => [(k, v)]
  | (k', v') :: o' =>
      if decide (k' = k) then (k', v) :: o' else (k', v') :: obj_set o' k v
  end.

(** Copying the own properties of [source] onto [target], in order. *)
Definition obj_assign (target source : Obj) : Obj :=
  foldl (λ o kv, obj_set o kv.1 kv.2) target source.

(** The object literal [{ ...a, ...b }]. *)
Definition spread2 (a b : Obj) : Obj := obj_assign (obj_assign [] a) b.

(** ** mergeProductData *)

Definition set_price (m : ProductRecord) (v : string) : ProductRecord :=
  {| name := name m; price := v; rating := rating m; features := features m;
     description := description m; availability := availability m;
     images := images m; specifications := specifications m |}.

Definition set_rating (m : ProductRecord) (v : string) : ProductRecord :=
  {| name := name m; price := price m; rating := v; features := features m;
     description := description m; availability := availability m;
     images := images m; specifications := specifications m |}.

Definition set_description (m : ProductRecord) (v : string) : ProductRecord :=
  {| name := name m; price := price m; rating := rating m; features := features m;
     description := v; availability := availability m;
     images := images m; specifications := specifications m |}.

Definition set_availability (m : ProductRecord) (v : string) : ProductRecord :=
  {| name := name m; price := price m; rating := rating m; features := features m;
     description := description m; availability := v;
     images := images m; specifications := specifications m |}.

Definition set_features (m : ProductRecord) (v : list string) : ProductRecord :=
  {| name := name m; price := price m; rating := rating m; features := v;
     description := description m; availability := availability m;
     images := images m; specifications := specifications m |}.

Definition set_images (m : ProductRecord) (v : list string) : ProductRecord :=
  {| name := name m; price := price m; rating := rating m; features := features m;
     description := description m; availability := availability m;
     images := v; specifications := specifications m |}.

Definition set_specifications (m : ProductRecord) (v : Obj) : ProductRecord :=
  {| name := name m; price := price m; rating := rating m; features := features m;
     description := description m; availability := availability m;
     images := images m; specifications := v |}.

(** The initial value of [merged]. *)
Definition merged_init (productName : string) : ProductRecord :=
  {| name := productName; price := ""; rating := ""; features := [];
     description := ""; availability := ""; images := [];
     specifications := [] |}.

(** One iteration of the [for (const result of results)] loop. *)
Definition merge_result (merged : ProductRecord) (result : PartialRecord) : ProductRecord :=
  let merged :=
    if truthy (p_price result) && negb (str_truthy (price merged))
    then set_price merged (default "" (p_price result)) else merged in
  let merged :=
    if truthy (p_rating result) && negb (str_truthy (rating merged))
    then set_rating merged (default "" (p_rating result)) else merged in
  let merged :=
    if truthy (p_description result) && negb (str_truthy (description merged))
    then set_description merged (default "" (p_description result)) else merged in
  let merged :=
    if truthy (p_availability result) && negb (str_truthy (availability merged))
    then set_availability merged (default "" (p_availability result)) else merged in
  let merged :=
    match p_features result with
    | Some fs => set_features merged (new_Set (features merged ++ fs))
    | None => merged
    end in
  let merged :=
    match p_images result with
    | Some imgs => set_images merged (new_Set (images merged ++ imgs))
    | None => merged
    end in
  match p_specifications result with
  | Some specs => set_specifications merged (spread2 (specifications merged) specs)
  | None => merged
  end.

Definition mergeProductData (results : list PartialRecord) (productName : string)
  : ProductRecord :=
  foldl merge_result (merged_init productName) results.

(** ** String primitives *)

(** The line terminator of the template literals. *)
Definition nl : string := String (Ascii.ascii_of_nat 10) "".

(** [String.prototype.toLowerCase], on ASCII letters. *)
Definition lower_ascii (c : Ascii.ascii) : Ascii.ascii :=
  let n := Ascii.nat_of_ascii c in
  if (65 <=? n)%nat && (n <=? 90)%nat then Ascii.ascii_of_nat (n + 32) else c.

Fixpoint toLowerCase (s : string) : string :=
  match s with
  | EmptyString => EmptyString
  | String c s' => String (lower_ascii c) (toLowerCase s')
  end.

(** [String.prototype.includes]: does [sub] occur in [s]. *)
Fixpoint includes (s sub : string) : bool :=
  String.prefix sub s ||
  match s with
  | EmptyString => false
  | String _ s' => includes s' sub
  end.

(** JavaScript white space, within ASCII: tab, line feed, vertical tab,
    form feed, carriage return, space. *)
Definition is_space (c : Ascii.ascii) : bool :=
  let n := Ascii.nat_of_ascii c in
  ((9 <=? n)%nat && (n <=? 13)%nat) || (n =? 32)%nat.

Fixpoint trim_start (s : string) : string :=
  match s with
  | EmptyString => EmptyString
  | String c s' => if is_space c then trim_start s' else s
  end.

Definition string_rev (s : string) : string :=
  String.string_of_list_ascii (reverse (String.list_ascii_of_string s)).

(** [String.prototype.trim]. *)
Definition trim (s : string) : string :=
  string_rev (trim_start (string_rev (trim_start s))).

(** [Array.prototype.join]. *)
Fixpoint join (sep : string) (l : list string) : string :=
  match l with
  | [] => ""
  | [x] => x
  | x :: l' => x +:+ sep +:+ join sep l'
  end.

(** [a || b] on strings. *)
Definition or_else (a b : string) : string := if str_truthy a then a else b.

(** [Number.prototype.toFixed(1)] on an exact rational: the integer [n]
    with [n / 10] nearest to the magnitude of [x], the larger one on a tie,
    written with one digit after the point. *)
Definition toFixed1_magnitude (x : Q) : string :=
  let n := Qfloor (x * 10 + (1 # 2)) in
  pretty (n `div` 10)%Z +:+ "." +:+ pretty (n `mod` 10)%Z.

Definition toFixed1 (x : Q) : string :=
  if Qlt_le_dec x 0 then "-" +:+ toFixed1_magnitude (- x) else toFixed1_magnitude x.

(** ** Values, log entries, thrown values *)

(** JavaScript values as they come out of [JSON.parse] or go into a log
    context; a number carries an integer. *)
Inductive Value :=
| VUndefined
| VNull
| VBool (b : bool)
| VNum (n : Z)
| VStr (s : string)
| VArr (items : list Value)
| VObj (fields : list (string * Value)).

Inductive Level := LInfo | LWarn | LError.

Record LogEntry := {
  level : Level;
  message : string;
  context : Value;
}.

(** What a [catch (error)] clause may receive: an [Error] object with its
    message, or any other thrown value. *)
Inductive Thrown :=
| ErrorObject (msg : string)
| OtherThrown.

(** [error instanceof Error ? error.message : "Unknown error"]. *)
Definition error_message (e : Thrown) : string :=
  match e with
  | ErrorObject msg => msg
  | OtherThrown => "Unknown error"
  end.

Inductive Result (A : Type) :=
| Ok (a : A)
| Throw (e : Thrown).
Arguments Ok {A} a.
Arguments Throw {A} e.

(** ** The world of the route module *)

(** The three scraper classes. *)
Inductive Method := Scrapybara | Playwright | Puppeteer.

(** [scraper.constructor.name]. *)
Definition constructor_name (m : Method) : string :=
  match m with
  | Scrapybara => "ScrapybaraBrowser"
  | Playwright => "PlaywrightScraper"
  | Puppeteer => "PuppeteerScraper"
  end.

(** What a prompt sent to the language model is built from. *)
Inductive LlmRequest :=
| ComparisonPrompt (p1 p2 : ProductRecord)
| ReadmePrompt (name1 name2 comparison : string).

(** Calls that leave the module. *)
Inductive Event :=
| SourceCall (m : Method) (productName : string)
| ModelCall (req : LlmRequest)
| ConsoleError (e : Thrown).

(** One run of a scraper's [scrapeProduct]: the entries it writes to the
    logger it was constructed with, then a record, nothing ([None], a falsy
    value) or an exception. *)
Record SourceRun := {
  run_logs : list LogEntry;
  run_result : Result (option PartialRecord);
}.

(** Everything the handler reads or changes outside its arguments.  The
    opaque collaborators are oracles indexed by the number of events that
    precede the call, so that they may answer differently each time. *)
Record World := {
  logs : list LogEntry;
  random_draws : nat → Q;
  random_used : nat;
  OPENAI_API_KEY : option string;
  scraper_runs : Method → string → nat → SourceRun;
  model_runs : LlmRequest → nat → Result string;
  trace : list Event;
}.

Definition add_logs (es : list LogEntry) (w : World) : World :=
  {| logs := logs w ++ es; random_draws := random_draws w;
     random_used := random_used w; OPENAI_API_KEY := OPENAI_API_KEY w;
     scraper_runs := scraper_runs w; model_runs := model_runs w;
     trace := trace w |}.

Definition add_event (e : Event) (w : World) : World :=
  {| logs := logs w; random_draws := random_draws w;
     random_used := random_used w; OPENAI_API_KEY := OPENAI_API_KEY w;
     scraper_runs := scraper_runs w; model_runs := model_runs w;
     trace := trace w ++ [e] |}.

Definition use_draw (w : World) : World :=
  {| logs := logs w; random_draws := random_draws w;
     random_used := S (random_used w); OPENAI_API_KEY := OPENAI_API_KEY w;
     scraper_runs := scraper_runs w; model_runs := model_runs w;
     trace := trace w |}.

(** Computations of the module: they read and change the world and either
    return or throw. *)
Definition M (A : Type) : Type := World → Result A * World.

#[global] Instance M_ret : MRet M := λ A a w, (Ok a, w).

#[global] Instance M_bind : MBind M := λ A B k m w,
  match m w with
  | (Ok a, w') => k a w'
  | (Throw e, w') => (Throw e, w')
  end.

Definition throw {A} (e : Thrown) : M A := λ w, (Throw e, w).

(** [try { body } catch (error) { handler }]. *)
Definition try_catch {A} (body : M A) (handler : Thrown → M A) : M A := λ w,
  match body w with
  | (Ok a, w') => (Ok a, w')
  | (Throw e, w') => handler e w'
  end.

(** [for (const x of l) { s = body(s, x) }]. *)
Fixpoint for_of {A S} (body : S → A → M S) (s : S) (l : list A) : M S :=
  match l with
  | [] => mret s
  | x :: l' => s' ← body s x; for_of body s' l'
  end.

(** Modelled from the spec: the logger class of [lib/maxim-logger] is not
    part of the sources; per the specification its entries form an ordered,
    append-only sequence of level, message and optional context, which
    [getLogs] exposes verbatim.  [logger_log] is [logger.info], [logger.warn]
    or [logger.error] according to the level; it appends one entry and does
    not throw. *)
Definition logger_log (l : Level) (msg : string) (ctx : Value) : M () := λ w,
  (Ok (), add_logs [{| level := l; message := msg; context := ctx |}] w).

(** Modelled from the spec: [logger.getLogs()] returns the entries recorded
    so far. *)
Definition logger_getLogs : M (list LogEntry) := λ w, (Ok (logs w), w).

(** [Math.random()]: the next draw. *)
Definition Math_random : M Q := λ w,
  (Ok (random_draws w (random_used w)), use_draw w).

(** [process.env.OPENAI_API_KEY]. *)
Definition env_OPENAI_API_KEY : M (option string) := λ w, (Ok (OPENAI_API_KEY w), w).

(** [console.error("API Error:", error)]. *)
Definition console_error (e : Thrown) : M () := λ w, (Ok (), add_event (ConsoleError e) w).

(** [await scraper.scrapeProduct(productName)]: the call is recorded, the
    run's entries reach the logger, and the run's result is returned or
    thrown.  Constructing a scraper has no effect of its own. *)
Definition scrapeProduct (scraper : Method) (productName : string)
  : M (option PartialRecord) := λ w,
  let run := scraper_runs w scraper productName (length (trace w)) in
  (run_result run, add_logs (run_logs run) (add_event (SourceCall scraper productName) w)).

(** [await generateText({ model, prompt })], giving the [text] of the answer. *)
Definition generateText (req : LlmRequest) : M string := λ w,
  (model_runs w req (length (trace w)), add_event (ModelCall req) w).

(** ** createIntelligentFallback *)

Definition isPhone (productName : string) : bool :=
  includes (toLowerCase productName) "phone" ||
  includes (toLowerCase productName) "iphone" ||
  includes (toLowerCase productName) "galaxy".

Definition isLaptop (productName : string) : bool :=
  includes (toLowerCase productName) "laptop" ||
  includes (toLowerCase productName) "macbook" ||
  includes (toLowerCase productName) "thinkpad".

Definition phone_features : list string :=
  [ "Advanced smartphone capabilities";
    "High-quality camera system";
    "5G wireless connectivity";
    "Premium touchscreen interface";
    "Comprehensive app ecosystem" ].

Definition phone_specifications : Obj :=
  [ ("Type", "Smartphone");
    ("Category", "Mobile Device");
    ("Screen Size", "6.1-6.8 inches");
    ("Storage", "128GB-1TB options");
    ("Data Source", "Intelligent estimation") ].

Definition laptop_features : list string :=
  [ "High-performance computing";
    "Portable design";
    "Long battery life";
    "Professional-grade display";
    "Advanced connectivity options" ].

Definition laptop_specifications : Obj :=
  [ ("Type", "Laptop Computer");
    ("Category", "Computing Device");
    ("Screen Size", "13-16 inches");
    ("Processor", "Latest generation");
    ("Data Source", "Intelligent estimation") ].

Definition generic_features : list string :=
  [ "Quality product features"; "Reliable performance";
    "User-friendly design"; "Good value proposition" ].

Definition generic_specifications (productName : string) : Obj :=
  [ ("Product", productName);
    ("Category", "Consumer Product");
    ("Data Source", "Intelligent estimation") ].

(** A draw is a rational number, and the arithmetic on it ([* 800 + 400],
    [Math.floor], [* 1.5 + 3.5], [toFixed(1)]) is exact. *)
Definition createIntelligentFallback (productName : string) : M PartialRecord :=
  if isPhone productName then
    u ← Math_random;
    v ← Math_random;
    mret
      {| p_name := Some productName;
         p_price := Some ("$" +:+ pretty (Qfloor (u * 800 + 400)) +:+ ".99");
         p_rating := Some (toFixed1 (v * 1.5 + 3.5) +:+ "/5 (estimated)");
         p_features := Some phone_features;
         p_availability := Some "Available at major retailers";
         p_specifications := Some phone_specifications;
         p_description :=
           Some (productName +:+ " - Advanced smartphone with intelligent analysis when direct scraping is unavailable.");
         p_images := None |}
  else if isLaptop productName then
    u ← Math_random;
    v ← Math_random;
    mret
      {| p_name := Some productName;
         p_price := Some ("$" +:+ pretty (Qfloor (u * 1500 + 500)) +:+ ".99");
         p_rating := Some (toFixed1 (v * 1.5 + 3.5) +:+ "/5 (estimated)");
         p_features := Some laptop_features;
         p_availability := Some "Available at major retailers";
         p_specifications := Some laptop_specifications;
         p_description :=
           Some (productName +:+ " - Professional laptop with intelligent analysis when direct scraping is unavailable.");
         p_images := None |}
  else
    u ← Math_random;
    v ← Math_random;
    mret
      {| p_name := Some productName;
         p_price := Some ("$" +:+ pretty (Qfloor (u * 500 + 100)) +:+ ".99");
         p_rating := Some (toFixed1 (v * 1.5 + 3.5) +:+ "/5 (estimated)");
         p_features := Some generic_features;
         p_availability := Some "Check retailer availability";
         p_specifications := Some (generic_specifications productName);
         p_description :=
           Some (productName +:+ " - Quality product with intelligent analysis when direct scraping is unavailable.");
         p_images := None |}.

(** ** scrapeProductDataWithFallback *)

(** The body of the loop over the scrapers: [results] before the iteration
    to [results] after it.  ([results.push(data)] is followed only by a
    logger call, which does not throw, so the pushed record is never joined
    by a fallback record of the same iteration.) *)
Definition scrape_one (productName : string) (results : list PartialRecord)
    (scraper : Method) : M (list PartialRecord) :=
  try_catch
    (logger_log LInfo
       ("Starting intelligent " +:+ constructor_name scraper +:+ " for " +:+ productName)
       VUndefined;;
     data ← scrapeProduct scraper productName;
     match data with
     | Some d =>
         logger_log LInfo
           ("Intelligent " +:+ constructor_name scraper +:+ " completed for " +:+ productName)
           VUndefined;;
         mret (results ++ [d])
     | None => mret results
     end)
    (λ error,
       let errorMessage := error_message error in
       logger_log LWarn
         ("Scraper " +:+ constructor_name scraper +:+ " had issues, using fallback data")
         (VObj [("product", VStr productName); ("error", VStr errorMessage)]);;
       fallback ← createIntelligentFallback productName;
       mret (results ++ [fallback])).

(** The loop, then the guard [if (results.length === 0)]: the list handed
    to the merge. *)
Definition collect_results (productName : string) (scrapers : list Method)
  : M (list PartialRecord) :=
  results ← for_of (scrape_one productName) [] scrapers;
  if decide (length results = 0) then
    logger_log LInfo ("Creating intelligent fallback data for " +:+ productName) VUndefined;;
    fallback ← createIntelligentFallback productName;
    mret (results ++ [fallback])
  else mret results.

Definition scrapeProductDataWithFallback (productName : string) (scrapers : list Method)
  : M ProductRecord :=
  results ← collect_results productName scrapers;
  mret (mergeProductData results productName).

(** ** Fallback renderers *)

(** [features.map(f => `- ${f}`).join("\n") || "- Features not available"]. *)
Definition render_features (fs : list string) : string :=
  or_else (join nl ((λ feature, "- " +:+ feature) <$> fs)) "- Features not available".

(** [Object.entries(specifications).map(([key, value]) => `- **${key}**: ${value}`)
    .join("\n") || "- Specifications not available"]. *)
Definition render_specifications (specs : Obj) : string :=
  or_else (join nl ((λ kv, "- **" +:+ kv.1 +:+ "**: " +:+ kv.2) <$> specs))
    "- Specifications not available".

Definition generateIntelligentFallbackComparison (product1 product2 : ProductRecord)
  : string :=
  join nl
    [ "# Product Comparison Analysis";
      "";
      "## " +:+ name product1 +:+ " vs " +:+ name product2;
      "";
      "### Price Comparison";
      "- **" +:+ name product1 +:+ "**: " +:+ or_else (price product1) "Price not available";
      "- **" +:+ name product2 +:+ "**: " +:+ or_else (price product2) "Price not available";
      "";
      "### Key Features Analysis";
      "";
      "#### " +:+ name product1 +:+ " Features:";
      render_features (features product1);
      "";
      "#### " +:+ name product2 +:+ " Features:";
      render_features (features product2);
      "";
      "### Specifications Comparison";
      "";
      "#### " +:+ name product1 +:+ ":";
      render_specifications (specifications product1);
      "";
      "#### " +:+ name product2 +:+ ":";
      render_specifications (specifications product2);
      "";
      "### Availability";
      "- **" +:+ name product1 +:+ "**: " +:+ or_else (availability product1) "Availability unknown";
      "- **" +:+ name product2 +:+ "**: " +:+ or_else (availability product2) "Availability unknown";
      "";
      "### Recommendation";
      "Based on the available data, both products offer unique advantages. Consider your specific needs, budget, and feature requirements when making a decision.";
      "";
      "*Note: This comparison was generated using intelligent fallback analysis due to API limitations. For the most accurate and detailed comparison, please ensure your OpenAI API key is properly configured.*" ].

Definition generateIntelligentFallbackReadme (product1 product2 : ProductRecord)
    (comparison : string) : string :=
  join nl
    [ "# Product Comparison: " +:+ name product1 +:+ " vs " +:+ name product2;
      "";
      "## Overview";
      "This document provides a comprehensive comparison between " +:+ name product1
        +:+ " and " +:+ name product2
        +:+ ", analyzing their features, specifications, pricing, and overall value proposition.";
      "";
      "## Product Specifications";
      "";
      "### " +:+ name product1;
      "- **Price**: " +:+ or_else (price product1) "Not available";
      "- **Rating**: " +:+ or_else (rating product1) "Not available";
      "- **Availability**: " +:+ or_else (availability product1) "Not available";
      "";
      "### " +:+ name product2;
      "- **Price**: " +:+ or_else (price product2) "Not available";
      "- **Rating**: " +:+ or_else (rating product2) "Not available";
      "- **Availability**: " +:+ or_else (availability product2) "Not available";
      "";
      "## Feature Comparison";
      "";
      "### " +:+ name product1 +:+ " Features";
      render_features (features product1);
      "";
      "### " +:+ name product2 +:+ " Features";
      render_features (features product2);
      "";
      "## Detailed Analysis";
      "";
      comparison;
      "";
      "## Conclusion and Recommendations";
      "";
      "Both products have their unique strengths and target different user needs. Consider the following factors when making your decision:";
      "";
      "1. **Budget**: Compare the pricing and value proposition";
      "2. **Features**: Identify which features are most important to you";
      "3. **Availability**: Check current stock and shipping options";
      "4. **Reviews**: Consider user ratings and feedback";
      "";
      "## Data Sources and Methodology";
      "";
      "This comparison was generated using:";
      "- Multi-source data aggregation";
      "- Intelligent browser automation";
      "- AI-powered analysis and comparison";
      "- Real-time product information gathering";
      "";
      "*Note: This README was generated using intelligent fallback analysis. For enhanced AI-powered insights, please ensure your OpenAI API key is properly configured.*";
      "";
      "---";
      "";
      "Generated by AI Product Comparison Agent" ].

(** ** Generators with fallback *)

Definition generateComparisonWithFallback (product1 product2 : ProductRecord)
  : M string :=
  try_catch
    (logger_log LInfo "Attempting to generate AI comparison using OpenAI" VUndefined;;
     text ← generateText (ComparisonPrompt product1 product2);
     logger_log LInfo "AI comparison generated successfully" VUndefined;;
     mret text)
    (λ error,
       logger_log LError "Failed to generate AI comparison"
         (VObj [("error", VStr (error_message error))]);;
       mret (generateIntelligentFallbackComparison product1 product2)).

Definition generateReadmeWithFallback (product1 product2 : ProductRecord)
    (comparison : string) : M string :=
  try_catch
    (logger_log LInfo "Attempting to generate README using OpenAI" VUndefined;;
     text ← generateText (ReadmePrompt (name product1) (name product2) comparison);
     logger_log LInfo "README generated successfully" VUndefined;;
     mret text)
    (λ error,
       logger_log LError "Failed to generate README"
         (VObj [("error", VStr (error_message error))]);;
       mret (generateIntelligentFallbackReadme product1 product2 comparison)).

(** ** POST *)

(** The destructured request body: the product names are strings when
    present, as the request interface declares them; [methods] is whatever
    the client sent ([VUndefined] when the property is missing). *)
Record Request := {
  product1 : option string;
  product2 : option string;
  methods : Value;
}.

(** What [request.json()] finds: a body that does not parse, or a request. *)
Inductive Body :=
| Malformed (e : Thrown)
| Json (req : Request).

Inductive ResponseBody :=
| ErrorOnly (error : string)
| ConfigurationError (error details setup : string)
| ComparisonResult (product1Data product2Data : ProductRecord)
    (comparison readme : string) (response_logs : list LogEntry)
| ServerError (error details : string) (response_logs : list LogEntry).

Record Response := {
  status : nat;
  body : ResponseBody;
}.

(** [NextResponse.json(body, { status })]; the status defaults to 200. *)
Definition NextResponse_json (b : ResponseBody) (st : nat) : Response :=
  {| status := st; body := b |}.

Definition request_json (request : Body) : M Request :=
  match request with
  | Malformed e => throw e
  | Json req => mret req
  end.

(** [methods.includes(id)] on whatever [methods] is: element equality on an
    array, substring search on a string, a [TypeError] on anything else. *)
Definition methods_includes (methods : Value) (id : string) : M bool :=
  match methods with
  | VArr items =>
      mret (existsb (λ item, match item with VStr s => String.eqb s id | _ => false end) items)
  | VStr s => mret (includes s id)
  | VUndefined =>
      throw (ErrorObject "Cannot read properties of undefined (reading 'includes')")
  | VNull =>
      throw (ErrorObject "Cannot read properties of null (reading 'includes')")
  | VBool _ | VNum _ | VObj _ =>
      throw (ErrorObject "methods.includes is not a function")
  end.

(** The test guarding the configuration-error branch. *)
Definition key_missing (key : option string) : bool :=
  negb (truthy key)
  || String.eqb (trim (default "" key)) ""
  || String.eqb (default "" key) "your_openai_api_key_here".

Definition setup_steps : string :=
  join nl
    [ "1. Go to https://platform.openai.com/api-keys";
      "2. Create a new API key";
      "3. Copy the key to your .env file: OPENAI_API_KEY=sk-proj-your-new-key";
      "4. Restart the development server" ].

Definition option_value (v : option string) : Value :=
  match v with
  | Some s => VStr s
  | None => VUndefined
  end.

Definition POST (request : Body) : M Response :=
  try_catch
    (req ← request_json request;
     if negb (truthy (product1 req)) || negb (truthy (product2 req)) then
       mret (NextResponse_json (ErrorOnly "Both product names are required") 400)
     else
     key ← env_OPENAI_API_KEY;
     if key_missing key then
       logger_log LError "OpenAI API key not configured properly" VUndefined;;
       mret (NextResponse_json
               (ConfigurationError "OpenAI API key not configured"
                  "Please add a valid OPENAI_API_KEY to your .env file" setup_steps)
               500)
     else
     logger_log LInfo "Starting product comparison with intelligent browser automation"
       (VObj [("product1", option_value (product1 req));
              ("product2", option_value (product2 req));
              ("methods", methods req)]);;
     let scrapers : list Method := [] in
     wanted ← methods_includes (methods req) "scrapybara";
     let scrapers := if (wanted : bool) then scrapers ++ [Scrapybara] else scrapers in
     wanted ← methods_includes (methods req) "playwright";
     let scrapers := if (wanted : bool) then scrapers ++ [Playwright] else scrapers in
     wanted ← methods_includes (methods req) "puppeteer";
     let scrapers := if (wanted : bool) then scrapers ++ [Puppeteer] else scrapers in
     if decide (length scrapers = 0) then
       mret (NextResponse_json (ErrorOnly "No valid scraping methods selected") 400)
     else
     product1Data ← scrapeProductDataWithFallback (default "" (product1 req)) scrapers;
     product2Data ← scrapeProductDataWithFallback (default "" (product2 req)) scrapers;
     logger_log LInfo "Intelligent browser automation completed"
       (VObj [("product1Features", VNum (Z.of_nat (length (features product1Data))));
              ("product2Features", VNum (Z.of_nat (length (features product2Data))))]);;
     comparison ← generateComparisonWithFallback product1Data product2Data;
     readme ← generateReadmeWithFallback product1Data product2Data comparison;
     response_logs ← logger_getLogs;
     logger_log LInfo "Product comparison completed successfully" VUndefined;;
     mret (NextResponse_json
             (ComparisonResult product1Data product2Data comparison readme response_logs)
             200))
    (λ error,
       console_error error;;
       logger_log LError "Error in product comparison"
         (VObj [("error", VStr (error_message error))]);;
       response_logs ← logger_getLogs;
       mret (NextResponse_json
               (ServerError
                  "Failed to compare products. Please check your configuration and try again."
                  (error_message error) response_logs)
               500)).

(* ================================================================== *)
(** * Vocabulary of the statements *)
(* ================================================================== *)

(** ** Reading the merge: the four scalar fields, sets and mappings *)

(** The four first-wins fields. *)
Inductive ScalarField := Price | Rating | Description | Availability.

Definition scalar_in (f : ScalarField) (r : PartialRecord) : option string :=
  match f with
  | Price => p_price r
  | Rating => p_rating r
  | Description => p_description r
  | Availability => p_availability r
  end.

Definition scalar_out (f : ScalarField) (m : ProductRecord) : string :=
  match f with
  | Price => price m
  | Rating => rating m
  | Description => description m
  | Availability => availability m
  end.

(** The first non-empty value of a scan, or the empty string. *)
Fixpoint first_nonempty (vs : list (option string)) : string :=
  match vs with
  | [] => ""
  | Some v :: vs' => if String.eqb v "" then first_nonempty vs' else v
  | None :: vs' => first_nonempty vs'
  end.

(** The two union fields. *)
Inductive ListField := Features | Images.

Definition list_in (f : ListField) (r : PartialRecord) : option (list string) :=
  match f with
  | Features => p_features r
  | Images => p_images r
  end.

Definition list_out (f : ListField) (m : ProductRecord) : list string :=
  match f with
  | Features => features m
  | Images => images m
  end.

(** What a record contributes to a union field or to the specifications:
    nothing when the property is missing. *)
Definition list_of (f : ListField) (r : PartialRecord) : list string :=
  default [] (list_in f r).

Definition specs_of (r : PartialRecord) : Obj := default [] (p_specifications r).

(** The union of the inputs' lists, as a finite set of strings. *)
Definition union_of (ls : list (list string)) : gset string :=
  ⋃ (list_to_set <$> ls).

(** The mapping an object denotes: its properties defined in order. *)
Definition obj_map (o : Obj) : gmap string string :=
  foldl (λ m kv, <[kv.1 := kv.2]> m) ∅ o.

(** Overlaying [later] on [acc]: on a common key the later value stands. *)
Definition overlay (acc later : gmap string string) : gmap string string :=
  later ∪ acc.

(** The two records of the colour-and-size scenario. *)
Definition record_A : PartialRecord :=
  {| p_name := None; p_price := Some ""; p_rating := None; p_features := None;
     p_description := None; p_availability := None; p_images := None;
     p_specifications := Some [("Color", "Red")] |}.

Definition record_B : PartialRecord :=
  {| p_name := None; p_price := Some "$10"; p_rating := None; p_features := None;
     p_description := None; p_availability := None; p_images := None;
     p_specifications := Some [("Color", "Blue"); ("Size", "M")] |}.

(** ** Reading the fallback generator *)

(** [sub] occurs in [text]. *)
Definition contains (text sub : string) : Prop :=
  ∃ before after, text = before +:+ sub +:+ after.

(** The draws of [Math.random] lie in the half-open unit interval. *)
Definition unit_draws (w : World) : Prop :=
  ∀ i, (0 <= random_draws w i < 1)%Q.

Inductive Category := PhoneLike | LaptopLike | Generic.

Definition category (productName : string) : Category :=
  if isPhone productName then PhoneLike
  else if isLaptop productName then LaptopLike
  else Generic.

Definition category_features (c : Category) : list string :=
  match c with
  | PhoneLike => phone_features
  | LaptopLike => laptop_features
  | Generic => generic_features
  end.

Definition category_specifications (c : Category) (productName : string) : Obj :=
  match c with
  | PhoneLike => phone_specifications
  | LaptopLike => laptop_specifications
  | Generic => generic_specifications productName
  end.

(** Lowest and highest whole-dollar amount of a category. *)
Definition category_price_range (c : Category) : Z * Z :=
  match c with
  | PhoneLike => (400, 1200)
  | LaptopLike => (500, 2000)
  | Generic => (100, 600)
  end%Z.

(** A world in which every scraper throws and the model is unavailable. *)
Definition failing_world : World :=
  {| logs := [];
     random_draws := λ i, if decide (i = 0) then 1 # 2 else 3 # 4;
     random_used := 0;
     OPENAI_API_KEY := Some "sk-proj-0123456789";
     scraper_runs := λ _ _ _,
       {| run_logs := []; run_result := Throw (ErrorObject "browser unavailable") |};
     model_runs := λ _ _, Throw (ErrorObject "quota exceeded");
     trace := [] |}.

(** The keyword tests, on the lower-cased name. *)
Definition phone_keyword (productName : string) : Prop :=
  contains (toLowerCase productName) "phone"
  ∨ contains (toLowerCase productName) "iphone"
  ∨ contains (toLowerCase productName) "galaxy".

Definition laptop_keyword (productName : string) : Prop :=
  contains (toLowerCase productName) "laptop"
  ∨ contains (toLowerCase productName) "macbook"
  ∨ contains (toLowerCase productName) "thinkpad".

(** ** Reading the aggregator *)

(** A record the fallback generator can return for the name. *)
Definition is_fallback (productName : string) (r : PartialRecord) : Prop :=
  ∃ w, createIntelligentFallback productName w = (Ok r, use_draw (use_draw w)).

(** The run a scraper makes when it is the [i]-th one invoked from [w]. *)
Definition source_run (w : World) (productName : string) (i : nat) (s : Method)
  : SourceRun :=
  scraper_runs w s productName (length (trace w) + i).

(** A run that puts a record on the list: a scraped one, or a fallback one
    after an exception; an empty answer puts nothing. *)
Definition contributes (run : SourceRun) : bool :=
  match run_result run with
  | Ok (Some _) => true
  | Ok None => false
  | Throw _ => true
  end.

Definition contributions (w : World) (productName : string)
    (scrapers : list Method) : nat :=
  length (filter (λ run, contributes run = true)
            (imap (source_run w productName) scrapers)).

(** Entries the aggregator writes. *)
Definition starting_entry (productName : string) (s : Method) : LogEntry :=
  {| level := LInfo;
     message := "Starting intelligent " +:+ constructor_name s +:+ " for " +:+ productName;
     context := VUndefined |}.

Definition completed_entry (productName : string) (s : Method) : LogEntry :=
  {| level := LInfo;
     message := "Intelligent " +:+ constructor_name s +:+ " completed for " +:+ productName;
     context := VUndefined |}.

Definition issues_entry (productName : string) (s : Method) (e : Thrown) : LogEntry :=
  {| level := LWarn;
     message := "Scraper " +:+ constructor_name s +:+ " had issues, using fallback data";
     context := VObj [("product", VStr productName); ("error", VStr (error_message e))] |}.

(** What one iteration of the loop does, by the scraper's run. *)
Definition scrape_one_outcome (productName : string) (results : list PartialRecord)
    (s : Method) (w : World) (results' : list PartialRecord) (w' : World) : Prop :=
  let run := scraper_runs w s productName (length (trace w)) in
  match run_result run with
  | Ok (Some d) =>
      results' = results ++ [d]
      ∧ logs w' = logs w ++ [starting_entry productName s] ++ run_logs run
                   ++ [completed_entry productName s]
  | Ok None =>
      results' = results
      ∧ logs w' = logs w ++ [starting_entry productName s] ++ run_logs run
  | Throw e =>
      (∃ fallback, results' = results ++ [fallback] ∧ is_fallback productName fallback)
      ∧ logs w' = logs w ++ [starting_entry productName s] ++ run_logs run
                   ++ [issues_entry productName s e]
  end.

(** What the world keeps while the aggregator runs. *)
Definition same_collaborators (w w' : World) : Prop :=
  scraper_runs w' = scraper_runs w
  ∧ model_runs w' = model_runs w
  ∧ OPENAI_API_KEY w' = OPENAI_API_KEY w
  ∧ random_draws w' = random_draws w.

(** A world in which the first scraper asked answers with nothing and the
    next one with a record. *)
Definition lamp_record : PartialRecord :=
  {| p_name := Some "Desk Lamp"; p_price := Some "$24.50"; p_rating := None;
     p_features := Some ["Dimmable"]; p_description := None;
     p_availability := None; p_images := None; p_specifications := None |}.

Definition quiet_world : World :=
  {| logs := [];
     random_draws := λ _, 1 # 2;
     random_used := 0;
     OPENAI_API_KEY := Some "sk-proj-0123456789";
     scraper_runs := λ s _ _,
       match s with
       | Playwright => {| run_logs := []; run_result := Ok None |}
       | _ => {| run_logs := []; run_result := Ok (Some lamp_record) |}
       end;
     model_runs := λ _ _, Ok "Both are fine.";
     trace := [] |}.

Definition creating_entry (productName : string) : LogEntry :=
  {| level := LInfo;
     message := "Creating intelligent fallback data for " +:+ productName;
     context := VUndefined |}.

(** Every scraper asked from [w] throws or answers with nothing. *)
Definition every_source_fails (w : World) (productName : string)
    (scrapers : list Method) : Prop :=
  ∀ i s d, scrapers !! i = Some s →
    run_result (source_run w productName i s) ≠ Ok (Some d).

(** Another world that yields the lamp record: other log, other draws,
    another scraper. *)
Definition failing_world_with_lamp : World :=
  {| logs := [{| level := LError; message := "left over"; context := VNull |}];
     random_draws := λ _, 1 # 4;
     random_used := 7;
     OPENAI_API_KEY := None;
     scraper_runs := λ _ _ _,
       {| run_logs := [{| level := LWarn; message := "slow page"; context := VUndefined |}];
          run_result := Ok (Some lamp_record) |};
     model_runs := λ _ _, Throw OtherThrown;
     trace := [] |}.

(** ** Reading the fallback renderers *)

(** What the comparison template shows of one product. *)
Definition renders_in_comparison (text : string) (p : ProductRecord) : Prop :=
  contains text (name p)
  ∧ (price p ≠ "" → contains text ("- **" +:+ name p +:+ "**: " +:+ price p))
  ∧ (price p = "" → contains text ("- **" +:+ name p +:+ "**: Price not available"))
  ∧ (∀ feature, feature ∈ features p → contains text ("- " +:+ feature))
  ∧ (features p = [] → contains text "- Features not available")
  ∧ (∀ key value, (key, value) ∈ specifications p →
       contains text ("- **" +:+ key +:+ "**: " +:+ value))
  ∧ (specifications p = [] → contains text "- Specifications not available")
  ∧ (availability p ≠ "" →
       contains text ("- **" +:+ name p +:+ "**: " +:+ availability p))
  ∧ (availability p = "" →
       contains text ("- **" +:+ name p +:+ "**: Availability unknown")).

(** What the document template shows of one product. *)
Definition renders_in_readme (text : string) (p : ProductRecord) : Prop :=
  contains text (name p)
  ∧ (price p ≠ "" → contains text ("- **Price**: " +:+ price p))
  ∧ (price p = "" → contains text "- **Price**: Not available")
  ∧ (rating p ≠ "" → contains text ("- **Rating**: " +:+ rating p))
  ∧ (rating p = "" → contains text "- **Rating**: Not available")
  ∧ (availability p ≠ "" → contains text ("- **Availability**: " +:+ availability p))
  ∧ (availability p = "" → contains text "- **Availability**: Not available")
  ∧ (∀ feature, feature ∈ features p → contains text ("- " +:+ feature))
  ∧ (features p = [] → contains text "- Features not available").

Definition attempt_comparison_entry : LogEntry :=
  {| level := LInfo; message := "Attempting to generate AI comparison using OpenAI";
     context := VUndefined |}.

Definition failed_comparison_entry (e : Thrown) : LogEntry :=
  {| level := LError; message := "Failed to generate AI comparison";
     context := VObj [("error", VStr (error_message e))] |}.

Definition attempt_readme_entry : LogEntry :=
  {| level := LInfo; message := "Attempting to generate README using OpenAI";
     context := VUndefined |}.

Definition failed_readme_entry (e : Thrown) : LogEntry :=
  {| level := LError; message := "Failed to generate README";
     context := VObj [("error", VStr (error_message e))] |}.

(** Two merged records with a description, a rating and an image but no
    price, features, specifications or availability. *)
Definition kettle : ProductRecord :=
  {| name := "Kettle"; price := ""; rating := "4.4/5"; features := [];
     description := "Boils a litre in two minutes"; availability := "";
     images := ["https://img.example/kettle.png"]; specifications := [] |}.

Definition toaster : ProductRecord :=
  {| name := "Toaster"; price := "$30"; rating := ""; features := ["Four slots"];
     description := ""; availability := "In stock";
     images := []; specifications := [("Colour", "Steel")] |}.

(** ** Reading the handler *)

(** Values on which [includes] exists: arrays and strings. *)
Definition searchable (v : Value) : Prop :=
  match v with
  | VArr _ | VStr _ => True
  | _ => False
  end.

(** The answer of [methods.includes(id)] on a searchable value. *)
Definition has_method (v : Value) (id : string) : bool :=
  match v with
  | VArr items =>
      existsb (λ item, match item with VStr s => String.eqb s id | _ => false end) items
  | VStr s => includes s id
  | _ => false
  end.

(** The scrapers instantiated for a searchable [methods]. *)
Definition selected_scrapers (v : Value) : list Method :=
  (if has_method v "scrapybara" then [Scrapybara] else [])
  ++ (if has_method v "playwright" then [Playwright] else [])
  ++ (if has_method v "puppeteer" then [Puppeteer] else []).

Definition comparison_start_entry (req : Request) : LogEntry :=
  {| level := LInfo;
     message := "Starting product comparison with intelligent browser automation";
     context := VObj [("product1", option_value (product1 req));
                      ("product2", option_value (product2 req));
                      ("methods", methods req)] |}.

Definition key_entry : LogEntry :=
  {| level := LError; message := "OpenAI API key not configured properly";
     context := VUndefined |}.

Definition failure_entry (e : Thrown) : LogEntry :=
  {| level := LError; message := "Error in product comparison";
     context := VObj [("error", VStr (error_message e))] |}.

Definition completion_entry : LogEntry :=
  {| level := LInfo; message := "Product comparison completed successfully";
     context := VUndefined |}.

(** The four kinds of answer. *)
Definition names_required_response : Response :=
  {| status := 400; body := ErrorOnly "Both product names are required" |}.

Definition no_methods_response : Response :=
  {| status := 400; body := ErrorOnly "No valid scraping methods selected" |}.

Definition configuration_response : Response :=
  {| status := 500;
     body := ConfigurationError "OpenAI API key not configured"
               "Please add a valid OPENAI_API_KEY to your .env file" setup_steps |}.

Definition failure_response (e : Thrown) (entries : list LogEntry) : Response :=
  {| status := 500;
     body := ServerError
               "Failed to compare products. Please check your configuration and try again."
               (error_message e) entries |}.

(** The log sequence a response carries, if it carries one. *)
Definition response_logs_of (resp : Response) : option (list LogEntry) :=
  match body resp with
  | ComparisonResult _ _ _ _ entries => Some entries
  | ServerError _ _ entries => Some entries
  | ErrorOnly _ => None
  | ConfigurationError _ _ _ => None
  end.

(** A world with entries left in the logger by earlier work, in which every
    scraper throws and the model is unavailable. *)
Definition busy_world : World :=
  {| logs := [{| level := LInfo; message := "Product comparison completed successfully";
                 context := VUndefined |}];
     random_draws := λ _, 1 # 3;
     random_used := 4;
     OPENAI_API_KEY := Some "sk-proj-0123456789";
     scraper_runs := λ _ _ _,
       {| run_logs := []; run_result := Throw OtherThrown |};
     model_runs := λ _ _, Throw (ErrorObject "quota exceeded");
     trace := [] |}.

(** Requests used as examples. *)
Definition lamps_no_methods : Request :=
  {| product1 := Some "Desk Lamp"; product2 := Some "Floor Lamp";
     methods := VArr [] |}.

Definition lamps_string_methods : Request :=
  {| product1 := Some "Desk Lamp"; product2 := Some "Floor Lamp";
     methods := VStr "none" |}.

Definition lamps_missing_methods : Request :=
  {| product1 := Some "Desk Lamp"; product2 := Some "Floor Lamp";
     methods := VUndefined |}.

Definition kitchen_puppeteer : Request :=
  {| product1 := Some "Kettle"; product2 := Some "Toaster";
     methods := VArr [VStr "puppeteer"] |}.

(** ** Reading the order of the merged lists *)

(** The list with every occurrence after the first one removed. *)
Definition first_occurrences (l : list string) : list string :=
  reverse (remove_dups (reverse l)).

(** All the values the inputs give for a union field, in input order. *)
Definition all_listed (f : ListField) (rs : list PartialRecord) : list string :=
  concat (list_of f <$> rs).

(** All the specification keys of the inputs, in input order. *)
Definition all_keys (rs : list PartialRecord) : list string :=
  concat ((λ r, (specs_of r).*1) <$> rs).

(** ** Reading the effects of the aggregator *)

(** A run that ends in an exception. *)
Definition throwing (run : SourceRun) : bool :=
  match run_result run with
  | Throw _ => true
  | Ok _ => false
  end.

(** How many of the scrapers asked from [w] throw. *)
Definition exceptions (w : World) (productName : string) (scrapers : list Method) : nat :=
  length (filter (λ run, throwing run = true)
            (imap (source_run w productName) scrapers)).

(** ** Reading the calls of the handler *)

(** The identifier by which a request selects a scraper. *)
Definition method_id (s : Method) : string :=
  match s with
  | Scrapybara => "scrapybara"
  | Playwright => "playwright"
  | Puppeteer => "puppeteer"
  end.

(** A scraper is requested by [methods]: its identifier is an element of
    the array, or occurs in the string. *)
Definition requested (v : Value) (s : Method) : Prop :=
  match v with
  | VArr items => VStr (method_id s) ∈ items
  | VStr text => contains text (method_id s)
  | _ => False
  end.

Definition source_calls (productName : string) (scrapers : list Method) : list Event :=
  (λ s, SourceCall s productName) <$> scrapers.

Definition automation_entry (d1 d2 : ProductRecord) : LogEntry :=
  {| level := LInfo; message := "Intelligent browser automation completed";
     context := VObj [("product1Features", VNum (Z.of_nat (length (features d1))));
                      ("product2Features", VNum (Z.of_nat (length (features d2))))] |}.

(** The request is one the handler carries through: parsed, both names,
    configured credential, searchable [methods] with a known identifier. *)
Definition accepted (request : Body) (w : World) : Prop :=
  ∃ req, request = Json req
         ∧ truthy (product1 req) = true ∧ truthy (product2 req) = true
         ∧ key_missing (OPENAI_API_KEY w) = false
         ∧ ∃ s, requested (methods req) s.

(** The language model fails whatever it is asked, whenever. *)
Definition model_unavailable (w : World) : Prop :=
  ∀ req i, ∃ e, model_runs w req i = Throw e.

(** A string made of white space only (the empty string included). *)
Definition all_space (s : string) : Prop :=
  ∀ c, c ∈ String.list_ascii_of_string s → is_space c = true.

(* ================================================================== *)
(** * The session manager *)
(* ================================================================== *)

(** The class [SessionManager]: a [Map] from session identifiers to
    sessions, swept by a timer.  The [Map] is a finite map (nothing the
    class does depends on insertion order); a [Date] is its [getTime()], the
    milliseconds since the epoch. *)
Module SessionManager.

(** What the manager reads of a session, and the rest of it. *)
Record Session := {
  startTime : Z;
  details : Value;
}.

Definition set (id : string) (session : Session) (sessions : gmap string Session)
  : gmap string Session :=
  <[id := session]> sessions.

Definition get (id : string) (sessions : gmap string Session) : option Session :=
  sessions !! id.

Definition has (id : string) (sessions : gmap string Session) : bool :=
  bool_decide (is_Some (sessions !! id)).

(** [Map.prototype.delete] returns whether the key was there. *)
Definition delete (id : string) (sessions : gmap string Session)
  : bool * gmap string Session :=
  (has id sessions, base.delete id sessions).

Definition clear (sessions : gmap string Session) : gmap string Session := ∅.

Definition size (sessions : gmap string Session) : nat := base.size sessions.

(** [30 * 60 * 1000] milliseconds. *)
Definition max_age : Z := 30 * 60 * 1000.

(** The callback of [setInterval]: one pass over the entries at time [now],
    deleting each session older than thirty minutes. *)
Definition cleanup (now : Z) (sessions : gmap string Session) : gmap string Session :=
  foldl (λ acc entry,
           let age := (now - startTime entry.2)%Z in
           if decide (age > max_age)%Z then base.delete entry.1 acc else acc)
    sessions (map_to_list sessions).

End SessionManager.

(** A session is older than thirty minutes at [now]. *)
Definition expired (now : Z) (session : SessionManager.Session) : Prop :=
  (now - SessionManager.startTime session > SessionManager.max_age)%Z.

#[global] Instance expired_dec now session : Decision (expired now session).
Proof. unfold expired. apply _. Defined.

(* ================================================================== *)
(** * The analysis endpoint of the earlier application *)
(* ================================================================== *)

(** [app/api/analyze/route.ts]: the agents of the request are reduced to
    eight properties each and handed, with the query, to the language
    model; whatever goes wrong is answered with one fixed error. *)
Module Analyze.

(** [{ query, agents } = await req.json()]: a body that cannot be
    destructured (it does not parse, or is null), or the two properties
    ([VUndefined] when missing). *)
Inductive Body :=
| Malformed (e : Thrown)
| Parsed (query agents : Value).

Inductive ResponseBody :=
| Analysis (text : string)
| ErrorOnly (error : string).

Record Response := {
  status : nat;
  body : ResponseBody;
}.

(** The properties of an agent that are kept, in the order of the object
    literal. *)
Definition kept_properties : list string :=
  [ "name"; "description"; "category"; "pricing"; "capabilities"; "useCase";
    "rating"; "features" ].

(** The value of property [key] among the members of a parsed object: the
    last member of that name, [undefined] when there is none. *)
Definition member (fields : list (string * Value)) (key : string) : Value :=
  foldl (λ found field, if decide (field.1 = key) then field.2 else found)
    VUndefined fields.

(** [agent.key] for one of the kept properties: a [TypeError] on [null] and
    [undefined], the member of an object, [undefined] on any other value. *)
Definition property (agent : Value) (key : string) : Result Value :=
  match agent with
  | VUndefined =>
      Throw (ErrorObject ("Cannot read properties of undefined (reading '" +:+ key +:+ "')"))
  | VNull =>
      Throw (ErrorObject ("Cannot read properties of null (reading '" +:+ key +:+ "')"))
  | VObj fields => Ok (member fields key)
  | VBool _ | VNum _ | VStr _ | VArr _ => Ok VUndefined
  end.

(** The object literal built for one agent. *)
Definition agent_data (agent : Value) : Result (list (string * Value)) :=
  foldr (λ key rest,
           match property agent key with
           | Ok v => match rest with
                     | Ok fields => Ok ((key, v) :: fields)
                     | Throw e => Throw e
                     end
           | Throw e => Throw e
           end)
    (Ok []) kept_properties.

(** [agents.map(agent => ...)]: exists on arrays only; the first agent that
    throws ends it. *)
Fixpoint map_agents (items : list Value) : Result (list (list (string * Value))) :=
  match items with
  | [] => Ok []
  | agent :: items' =>
      match agent_data agent with
      | Ok d => match map_agents items' with
                | Ok ds => Ok (d :: ds)
                | Throw e => Throw e
                end
      | Throw e => Throw e
      end
  end.

Definition agents_map (agents : Value) : Result (list (list (string * Value))) :=
  match agents with
  | VArr items => map_agents items
  | VUndefined =>
      Throw (ErrorObject "Cannot read properties of undefined (reading 'map')")
  | VNull => Throw (ErrorObject "Cannot read properties of null (reading 'map')")
  | VBool _ | VNum _ | VStr _ | VObj _ => Throw (ErrorObject "agents.map is not a function")
  end.

(** What the module reaches outside: the model, as an oracle on the query,
    the agent data and the number of earlier calls; the calls made; the
    console. *)
Record World := {
  model_runs : Value → list (list (string * Value)) → nat → Result string;
  asked : list (Value * list (list (string * Value)));
  console : list Thrown;
}.

(** [await generateText({ model, system, prompt })]; the prompt is made of
    the query and of the agent data. *)
Definition generateText (query : Value) (data : list (list (string * Value)))
    (w : World) : Result string * World :=
  (model_runs w query data (length (asked w)),
   {| model_runs := model_runs w; asked := asked w ++ [(query, data)];
      console := console w |}).

Definition console_error (e : Thrown) (w : World) : World :=
  {| model_runs := model_runs w; asked := asked w; console := console w ++ [e] |}.

Definition failed (e : Thrown) (w : World) : Response * World :=
  ({| status := 500; body := ErrorOnly "Failed to generate analysis" |},
   console_error e w).

Definition POST (req : Body) (w : World) : Response * World :=
  match req with
  | Malformed e => failed e w
  | Parsed query agents =>
      match agents_map agents with
      | Throw e => failed e w
      | Ok agentData =>
          match generateText query agentData w with
          | (Ok text, w') => ({| status := 200; body := Analysis text |}, w')
          | (Throw e, w') => failed e w'
          end
      end
  end.

End Analyze.

(** An agent that can be read: anything but [null] and [undefined]. *)
Definition readable_agent (agent : Value) : Prop :=
  match agent with
  | VUndefined | VNull => False
  | _ => True
  end.

(** The eight kept properties of a readable agent. *)
Definition kept_of (agent : Value) : list (string * Value) :=
  (λ key, (key, match agent with
                | VObj fields => Analyze.member fields key
                | _ => VUndefined
                end)) <$> Analyze.kept_properties.

(* ================================================================== *)
(** * The method selection of the page *)
(* ================================================================== *)

(** The state [selectedMethods] starts as this list. *)
Definition initial_methods : list string := ["scrapybara"; "playwright"].

(** The click handler of a method card: nothing while a comparison runs;
    otherwise the identifier is taken out of the selection when it is in
    it, and put at its end when it is not. *)
Definition click_method (isRunning : bool) (id : string) (prev : list string)
  : list string :=
  if isRunning then prev
  else if bool_decide (id ∈ prev) then filter (λ x, x ≠ id) prev
  else prev ++ [id].

(* ================================================================== *)
(** * Theorems *)
(* ================================================================== *)

(** ** Scalar fields *)

Lemma str_truthy_false s : str_truthy s = false ↔ s = "".
Proof.
  unfold str_truthy. destruct (String.eqb_spec s ""); simpl; split; congruence.
Qed.

Lemma str_truthy_true s : str_truthy s = true ↔ s ≠ "".
Proof.
  unfold str_truthy. destruct (String.eqb_spec s ""); simpl; split; congruence.
Qed.

(** What one loop iteration does to a first-wins field. *)
Lemma merge_result_scalar f m r :
  scalar_out f (merge_result m r) =
  if truthy (scalar_in f r) && negb (str_truthy (scalar_out f m))
  then default "" (scalar_in f r) else scalar_out f m.
Proof.
  unfold merge_result.
  destruct f; cbn [scalar_in scalar_out];
    destruct (truthy (p_price r) && negb (str_truthy (price m))); cbn;
    destruct (truthy (p_rating r) && negb (str_truthy (rating m))); cbn;
    destruct (truthy (p_description r) && negb (str_truthy (description m))); cbn;
    destruct (truthy (p_availability r) && negb (str_truthy (availability m))); cbn;
    destruct (p_features r), (p_images r), (p_specifications r); reflexivity.
Qed.

Lemma merge_loop_scalar f rs m :
  scalar_out f (foldl merge_result m rs) =
  if str_truthy (scalar_out f m) then scalar_out f m
  else first_nonempty (scalar_in f <$> rs).
Proof.
  revert m. induction rs as [|r rs IH]; intros m; simpl.
  - destruct (str_truthy _) eqn:E; [done|]. by apply str_truthy_false in E.
  - rewrite IH, merge_result_scalar.
    destruct (scalar_in f r) as [v|]; cbn [truthy default fmap list_fmap first_nonempty].
    + unfold str_truthy.
      destruct (String.eqb_spec (scalar_out f m) "") as [Hm|Hm],
               (String.eqb_spec v "") as [Hv|Hv]; cbn.
      * by rewrite Hm.
      * by destruct (String.eqb_spec v "").
      * by destruct (String.eqb_spec (scalar_out f m) "").
      * by destruct (String.eqb_spec (scalar_out f m) "").
    + by rewrite andb_false_l.
Qed.

Lemma first_nonempty_hit vs i v :
  vs !! i = Some (Some v) → v ≠ "" →
  (∀ j u, j < i → vs !! j = Some u → truthy u = false) →
  first_nonempty vs = v.
Proof.
  revert i. induction vs as [|u vs IH]; intros i Hi Hv Hbefore; [done|].
  destruct i as [|i]; simpl in *.
  - injection Hi as ->. by destruct (String.eqb_spec v "").
  - assert (truthy u = false) as Hu by (apply (Hbefore 0 u); [lia|done]).
    assert (first_nonempty vs = v) as Hrec.
    { apply (IH i); [done..|]. intros j u' Hj Hl. apply (Hbefore (S j) u'); [lia|done]. }
    destruct u as [s|]; [|done]. simpl in Hu. apply str_truthy_false in Hu as ->. done.
Qed.

Lemma first_nonempty_none vs :
  (∀ u, u ∈ vs → truthy u = false) → first_nonempty vs = "".
Proof.
  induction vs as [|u vs IH]; intros H; [done|]. simpl.
  assert (truthy u = false) as Hu by (apply H; left).
  assert (first_nonempty vs = "") as Hrec by (apply IH; intros; apply H; by right).
  destruct u as [s|]; [|done]. simpl in Hu. apply str_truthy_false in Hu as ->. done.
Qed.

(** C1. Each of price, rating, description and availability of the merged
    record is the first non-empty value of that field in the input list,
    scanned in order: a non-empty value at position [i] with only empty
    (missing or empty-string) values before it is the merged value; when
    every input leaves the field empty the merged field is the empty
    string. *)
Theorem merge_scalar_first_nonempty (f : ScalarField) (rs : list PartialRecord)
    (productName : string) :
  scalar_out f (mergeProductData rs productName) = first_nonempty (scalar_in f <$> rs)
  ∧ (∀ i r v,
       rs !! i = Some r → scalar_in f r = Some v → v ≠ "" →
       (∀ j r', j < i → rs !! j = Some r' → truthy (scalar_in f r') = false) →
       scalar_out f (mergeProductData rs productName) = v)
  ∧ ((∀ r, r ∈ rs → truthy (scalar_in f r) = false) →
       scalar_out f (mergeProductData rs productName) = "").
Proof.
  assert (scalar_out f (mergeProductData rs productName)
          = first_nonempty (scalar_in f <$> rs)) as Heq.
  { unfold mergeProductData. rewrite merge_loop_scalar. by destruct f. }
  split; [exact Heq|]. rewrite Heq. split.
  - intros i r v Hi Hf Hv Hbefore. apply (first_nonempty_hit _ i); [|done|].
    + by rewrite list_lookup_fmap, Hi, <- Hf.
    + intros j u Hj Hl. rewrite list_lookup_fmap in Hl.
      destruct (rs !! j) as [r'|] eqn:E; [|done]. injection Hl as <-.
      by apply (Hbefore j).
  - intros Hall. apply first_nonempty_none. intros u Hu.
    apply list_elem_of_fmap in Hu as (r & -> & Hr). by apply Hall.
Qed.

Lemma merge_scalar_first_nonempty_witness :
  price (mergeProductData [record_A; record_B] "Widget") = "$10"
  ∧ rating (mergeProductData [record_A; record_B] "Widget") = "".
Proof.
  destruct (merge_scalar_first_nonempty Price [record_A; record_B] "Widget")
    as (_ & Hhit & _).
  destruct (merge_scalar_first_nonempty Rating [record_A; record_B] "Widget")
    as (_ & _ & Hnone).
  split.
  - apply (Hhit 1 record_B "$10"); [reflexivity|reflexivity|discriminate|].
    intros j r' Hj Hr'. destruct j as [|j]; [|lia].
    injection Hr' as <-. reflexivity.
  - apply Hnone. intros r Hr.
    apply elem_of_cons in Hr as [->|Hr]; [reflexivity|].
    apply elem_of_cons in Hr as [->|Hr]; [reflexivity|].
    by apply elem_of_nil in Hr.
Defined.

(** ** Union fields *)

Lemma Set_add_elem s x y : y ∈ Set_add s x ↔ y ∈ s ∨ y = x.
Proof.
  unfold Set_add. case_decide; set_solver.
Qed.

Lemma Set_add_NoDup s x : NoDup s → NoDup (Set_add s x).
Proof.
  intros Hs. unfold Set_add. case_decide; [done|].
  apply NoDup_app. split_and!; [done| |apply NoDup_singleton].
  intros y Hy ->%list_elem_of_singleton. done.
Qed.

Lemma foldl_Set_add l s :
  NoDup s →
  NoDup (foldl Set_add s l) ∧ ∀ y, y ∈ foldl Set_add s l ↔ y ∈ s ∨ y ∈ l.
Proof.
  revert s. induction l as [|x l IH]; intros s Hs; simpl.
  - split; [done|]. set_solver.
  - destruct (IH (Set_add s x) (Set_add_NoDup s x Hs)) as [Hnd Hel].
    split; [done|]. intros y. rewrite Hel, Set_add_elem. set_solver.
Qed.

Lemma new_Set_NoDup l : NoDup (new_Set l).
Proof. apply foldl_Set_add, NoDup_nil_2. Qed.

Lemma new_Set_elem l y : y ∈ new_Set l ↔ y ∈ l.
Proof.
  unfold new_Set. destruct (foldl_Set_add l [] (NoDup_nil_2)) as [_ ->]. set_solver.
Qed.

Lemma merge_result_list f m r :
  list_out f (merge_result m r) =
  match list_in f r with
  | Some l => new_Set (list_out f m ++ l)
  | None => list_out f m
  end.
Proof.
  unfold merge_result.
  destruct f; cbn [list_in list_out];
    destruct (truthy (p_price r) && negb (str_truthy (price m))); cbn;
    destruct (truthy (p_rating r) && negb (str_truthy (rating m))); cbn;
    destruct (truthy (p_description r) && negb (str_truthy (description m))); cbn;
    destruct (truthy (p_availability r) && negb (str_truthy (availability m))); cbn;
    destruct (p_features r), (p_images r), (p_specifications r); reflexivity.
Qed.

Lemma merge_loop_list f rs m :
  NoDup (list_out f m) →
  NoDup (list_out f (foldl merge_result m rs))
  ∧ list_to_set (list_out f (foldl merge_result m rs))
    =@{gset string} list_to_set (list_out f m) ∪ union_of (list_of f <$> rs).
Proof.
  revert m. induction rs as [|r rs IH]; intros m Hm; simpl.
  - split; [done|]. unfold union_of. simpl. set_solver.
  - assert (NoDup (list_out f (merge_result m r))) as Hstep.
    { rewrite merge_result_list. destruct (list_in f r); [apply new_Set_NoDup|done]. }
    destruct (IH _ Hstep) as [Hnd Heq]. split; [done|].
    rewrite Heq. unfold union_of. rewrite fmap_cons, union_list_cons.
    assert (list_to_set (list_out f (merge_result m r))
            =@{gset string} list_to_set (list_out f m) ∪ list_to_set (list_of f r)) as ->.
    { rewrite merge_result_list. unfold list_of.
      destruct (list_in f r) as [l|]; simpl.
      - apply set_eq. intros y.
        rewrite elem_of_list_to_set, new_Set_elem, elem_of_union, !elem_of_list_to_set.
        apply elem_of_app.
      - set_solver. }
    set_solver.
Qed.

Lemma elem_of_union_of ls x : x ∈ union_of ls ↔ ∃ l, l ∈ ls ∧ x ∈ l.
Proof.
  unfold union_of. rewrite elem_of_union_list. split.
  - intros (X & HX & Hx). apply list_elem_of_fmap in HX as (l & -> & Hl).
    exists l. split; [done|]. by apply elem_of_list_to_set in Hx.
  - intros (l & Hl & Hx). exists (list_to_set l). split.
    + apply list_elem_of_fmap. by exists l.
    + by apply elem_of_list_to_set.
Qed.

(** C2. The features and the images of the merged record are the set union
    of the inputs' lists under exact string equality, duplicates removed:
    the merged list has no repetition, its element set is the union, its
    length is the cardinality of the union, an entry is in it exactly when
    some input lists it, and every input's whole list survives.  (Holds for
    the empty input list too.) *)
Theorem merge_lists_set_union (f : ListField) (rs : list PartialRecord)
    (productName : string) :
  let out := list_out f (mergeProductData rs productName) in
  NoDup out
  ∧ list_to_set out =@{gset string} union_of (list_of f <$> rs)
  ∧ length out = size (union_of (list_of f <$> rs))
  ∧ (∀ x, x ∈ out ↔ ∃ r l, r ∈ rs ∧ list_in f r = Some l ∧ x ∈ l)
  ∧ (∀ r l, r ∈ rs → list_in f r = Some l → l ⊆ out).
Proof.
  intros out.
  destruct (merge_loop_list f rs (merged_init productName)) as [Hnd Heq].
  { destruct f; apply NoDup_nil_2. }
  fold (mergeProductData rs productName) in Hnd, Heq. fold out in Hnd, Heq.
  assert (list_to_set out =@{gset string} union_of (list_of f <$> rs)) as Hset.
  { rewrite Heq. destruct f; simpl; set_solver. }
  assert (∀ x, x ∈ out ↔ ∃ r l, r ∈ rs ∧ list_in f r = Some l ∧ x ∈ l) as Hmem.
  { intros x. rewrite <- (elem_of_list_to_set (C:=gset string)), Hset, elem_of_union_of.
    split.
    - intros (l & Hl & Hx). apply list_elem_of_fmap in Hl as (r & -> & Hr).
      unfold list_of in Hx. destruct (list_in f r) as [l|] eqn:E; simpl in Hx.
      + by exists r, l.
      + by apply elem_of_nil in Hx.
    - intros (r & l & Hr & Hl & Hx). exists l. split; [|done].
      apply list_elem_of_fmap. exists r. split; [|done]. unfold list_of. by rewrite Hl. }
  split_and!; [done|done| |done|].
  - rewrite <- Hset. symmetry. by apply size_list_to_set.
  - intros r l Hr Hl x Hx. apply Hmem. by exists r, l.
Qed.

Lemma merge_lists_set_union_witness :
  ["Dimmable"] ⊆ features (mergeProductData [lamp_record; lamp_record] "Desk Lamp")
  ∧ length (features (mergeProductData [lamp_record; lamp_record] "Desk Lamp")) = 1.
Proof.
  destruct (merge_lists_set_union Features [lamp_record; lamp_record] "Desk Lamp")
    as (_ & _ & Hlen & _ & Hsub).
  split.
  - apply (Hsub lamp_record); [left|reflexivity].
  - etrans; [exact Hlen|]. vm_compute. reflexivity.
Defined.

(** ** Specifications *)

Lemma list_to_map_obj_set (o : Obj) k v :
  list_to_map (obj_set o k v) =@{gmap string string} <[k:=v]> (list_to_map o).
Proof.
  induction o as [|[k' v'] o IH]; simpl; [done|].
  case_decide as Hk; simpl.
  - subst k'. by rewrite insert_insert_eq.
  - rewrite IH. by apply insert_insert_ne.
Qed.

Lemma obj_set_keys (o : Obj) k v :
  (obj_set o k v).*1 = if decide (k ∈ o.*1) then o.*1 else (o.*1 ++ [k])%list.
Proof.
  induction o as [|[k' v'] o IH]; [done|].
  cbn [obj_set]. destruct (decide (k' = k)) as [->|Hk].
  - rewrite !fmap_cons. simpl. rewrite decide_True; [done|left].
  - rewrite !fmap_cons, IH. simpl. destruct (decide (k ∈ o.*1)) as [Hin|Hin].
    + rewrite decide_True; [done|by right].
    + rewrite decide_False; [done|]. intros [->|?]%elem_of_cons; done.
Qed.

Lemma obj_set_NoDup (o : Obj) k v : NoDup o.*1 → NoDup (obj_set o k v).*1.
Proof.
  intros Ho. rewrite obj_set_keys. case_decide as Hk; [done|].
  apply NoDup_app. split_and!; [done| |apply NoDup_singleton].
  intros y Hy ->%list_elem_of_singleton. done.
Qed.

Lemma obj_assign_NoDup (source target : Obj) :
  NoDup target.*1 → NoDup (obj_assign target source).*1.
Proof.
  unfold obj_assign. revert target.
  induction source as [|[k v] source IH]; intros target Ht; simpl; [done|].
  by apply IH, obj_set_NoDup.
Qed.

Lemma foldl_insert_overlay (s : Obj) (m : gmap string string) :
  foldl (λ m kv, <[kv.1 := kv.2]> m) m s = overlay m (obj_map s).
Proof.
  unfold overlay, obj_map.
  induction s as [|[k v] s IH] using rev_ind; simpl.
  - by rewrite (left_id_L ∅ (∪)).
  - rewrite !foldl_snoc, IH. simpl. by rewrite insert_union_l.
Qed.

Lemma list_to_map_obj_assign (source target : Obj) :
  list_to_map (obj_assign target source)
  =@{gmap string string} overlay (list_to_map target) (obj_map source).
Proof.
  rewrite <- foldl_insert_overlay. unfold obj_assign. revert target.
  induction source as [|[k v] source IH]; intros target; simpl; [done|].
  by rewrite IH, list_to_map_obj_set.
Qed.

(** For an object with unique keys the two readings of the list agree. *)
Lemma obj_map_unique_keys (o : Obj) : NoDup o.*1 → obj_map o = list_to_map o.
Proof.
  induction o as [|[k v] o IH] using rev_ind; intros Hnd; [done|].
  rewrite fmap_app in Hnd. apply NoDup_app in Hnd as (Ho & Hk & _).
  unfold obj_map in *. rewrite foldl_snoc, (IH Ho). simpl.
  rewrite list_to_map_snoc; [done|].
  intros Hin. apply (Hk k Hin). simpl. left.
Qed.

Lemma spread2_NoDup (a b : Obj) : NoDup (spread2 a b).*1.
Proof.
  unfold spread2. apply obj_assign_NoDup, obj_assign_NoDup. simpl. apply NoDup_nil_2.
Qed.

Lemma obj_map_spread2 (a b : Obj) :
  obj_map (spread2 a b) = overlay (obj_map a) (obj_map b).
Proof.
  rewrite obj_map_unique_keys by apply spread2_NoDup.
  unfold spread2. rewrite !list_to_map_obj_assign. simpl.
  unfold overlay. by rewrite (right_id_L ∅ (∪)).
Qed.

Lemma merge_result_specifications m r :
  specifications (merge_result m r) =
  match p_specifications r with
  | Some specs => spread2 (specifications m) specs
  | None => specifications m
  end.
Proof.
  unfold merge_result.
  destruct (truthy (p_price r) && negb (str_truthy (price m))); cbn;
    destruct (truthy (p_rating r) && negb (str_truthy (rating m))); cbn;
    destruct (truthy (p_description r) && negb (str_truthy (description m))); cbn;
    destruct (truthy (p_availability r) && negb (str_truthy (availability m))); cbn;
    destruct (p_features r), (p_images r), (p_specifications r); reflexivity.
Qed.

Lemma merge_loop_specifications rs m :
  NoDup (specifications m).*1 →
  NoDup (specifications (foldl merge_result m rs)).*1
  ∧ obj_map (specifications (foldl merge_result m rs))
    = foldl (λ acc r, overlay acc (obj_map (specs_of r))) (obj_map (specifications m)) rs.
Proof.
  revert m. induction rs as [|r rs IH]; intros m Hm; simpl; [done|].
  assert (NoDup (specifications (merge_result m r)).*1) as Hstep.
  { rewrite merge_result_specifications.
    destruct (p_specifications r); [apply spread2_NoDup|done]. }
  destruct (IH _ Hstep) as [Hnd Heq]. split; [done|]. rewrite Heq. f_equal.
  rewrite merge_result_specifications. unfold specs_of.
  destruct (p_specifications r) as [specs|]; simpl.
  - apply obj_map_spread2.
  - unfold overlay, obj_map. simpl. by rewrite (left_id_L ∅ (∪)).
Qed.

Lemma overlay_fold_skip rs (acc : gmap string string) k :
  (∀ r, r ∈ rs → obj_map (specs_of r) !! k = None) →
  foldl (λ acc r, overlay acc (obj_map (specs_of r))) acc rs !! k = acc !! k.
Proof.
  revert acc. induction rs as [|r rs IH]; intros acc Hnone; simpl; [done|].
  rewrite IH by (intros r' Hr'; apply Hnone; by right).
  unfold overlay. apply lookup_union_r. apply Hnone. left.
Qed.

(** C3. The specifications of the merged record denote the left fold, in
    list order, of overlaying each input's specification mapping on the
    accumulated one, starting from the empty mapping; on a common key the
    later record's value stands.  The merged object has each key once;
    looking a key up in it gives the value of the last input that has the
    key, and nothing when no input has it.  In the scenario, A (price empty, Color Red) followed by B (price
    $10, Color Blue, Size M) merges to price $10 and exactly Color Blue,
    Size M. *)
Theorem merge_specifications_overlay (rs : list PartialRecord) (productName : string) :
  obj_map (specifications (mergeProductData rs productName))
    = foldl (λ acc r, overlay acc (obj_map (specs_of r))) ∅ rs
  ∧ NoDup (specifications (mergeProductData rs productName)).*1
  ∧ (∀ (earlier later : list PartialRecord) r k v,
       rs = earlier ++ r :: later →
       obj_map (specs_of r) !! k = Some v →
       (∀ r', r' ∈ later → obj_map (specs_of r') !! k = None) →
       obj_map (specifications (mergeProductData rs productName)) !! k = Some v)
  ∧ (∀ k,
       (∀ r, r ∈ rs → obj_map (specs_of r) !! k = None) →
       obj_map (specifications (mergeProductData rs productName)) !! k = None)
  ∧ price (mergeProductData [record_A; record_B] productName) = "$10"
  ∧ specifications (mergeProductData [record_A; record_B] productName)
    = [("Color", "Blue"); ("Size", "M")].
Proof.
  destruct (merge_loop_specifications rs (merged_init productName)) as [Hnd Heq].
  { simpl. apply NoDup_nil_2. }
  fold (mergeProductData rs productName) in Hnd, Heq.
  split_and!; [exact Heq|exact Hnd| | |reflexivity..].
  - intros earlier later r k v -> Hk Hlater.
    rewrite Heq, foldl_app. simpl. rewrite overlay_fold_skip by done.
    unfold overlay at 1. by apply lookup_union_Some_l.
  - intros k Hnone. rewrite Heq, overlay_fold_skip by done. apply lookup_empty.
Qed.

Lemma merge_specifications_overlay_witness :
  obj_map (specifications (mergeProductData [record_A; record_B] "Widget")) !! "Color"
    = Some "Blue"
  ∧ obj_map (specifications (mergeProductData [record_A; record_B] "Widget")) !! "Weight"
    = None.
Proof.
  destruct (merge_specifications_overlay [record_A; record_B] "Widget")
    as (_ & _ & Hlast & Hnone & _).
  split.
  - apply (Hlast [record_A] [] record_B); [reflexivity|by vm_compute|].
    intros r' Hr'. by apply elem_of_nil in Hr'.
  - apply Hnone. intros r Hr.
    apply elem_of_cons in Hr as [->|Hr]; [by vm_compute|].
    apply elem_of_cons in Hr as [->|Hr]; [by vm_compute|].
    by apply elem_of_nil in Hr.
Defined.

(** ** Substrings *)

Lemma append_nil_l (b : string) : "" +:+ b = b.
Proof. reflexivity. Qed.

Lemma append_cons c (a b : string) : String c a +:+ b = String c (a +:+ b).
Proof. reflexivity. Qed.

Lemma append_assoc (a b c : string) : (a +:+ b) +:+ c = a +:+ (b +:+ c).
Proof.
  induction a as [|x a IH]; [done|]. by rewrite !append_cons, IH.
Qed.

Lemma append_nil_r (a : string) : a +:+ "" = a.
Proof.
  induction a as [|x a IH]; [done|]. by rewrite append_cons, IH.
Qed.

Lemma contains_refl s : contains s s.
Proof. exists "", "". by rewrite append_nil_l, append_nil_r. Qed.

Lemma contains_app_l a b sub : contains a sub → contains (a +:+ b) sub.
Proof.
  intros (x & y & ->). exists x, (y +:+ b). by rewrite !append_assoc.
Qed.

Lemma contains_app_r a b sub : contains b sub → contains (a +:+ b) sub.
Proof.
  intros (x & y & ->). exists (a +:+ x), y. by rewrite !append_assoc.
Qed.

Lemma contains_trans a b c : contains a b → contains b c → contains a c.
Proof.
  intros (x & y & ->) Hc. by apply contains_app_r, contains_app_l.
Qed.

Lemma contains_join sep l x : x ∈ l → contains (join sep l) x.
Proof.
  induction l as [|y l IH]; intros Hx; [by apply elem_of_nil in Hx|].
  apply elem_of_cons in Hx as [->|Hx].
  - destruct l; simpl; [apply contains_refl|apply contains_app_l, contains_refl].
  - destruct l as [|z l]; [by apply elem_of_nil in Hx|].
    change (contains (y +:+ sep +:+ join sep (z :: l)) x).
    by apply contains_app_r, contains_app_r, IH.
Qed.

Lemma prefix_spec sub s : String.prefix sub s = true ↔ ∃ after, s = sub +:+ after.
Proof.
  revert s. induction sub as [|a sub IH]; intros s; simpl.
  - destruct s; (split; [intros _; eexists; reflexivity|done]).
  - destruct s as [|b s]; simpl.
    + split; [done|]. by intros [after ?].
    + destruct (Ascii.ascii_dec a b) as [->|Hab].
      * rewrite IH. split; intros [after H]; exists after.
        -- by rewrite append_cons, H.
        -- rewrite append_cons in H. congruence.
      * split; [done|]. intros [after H]. rewrite append_cons in H. congruence.
Qed.

Lemma includes_spec s sub : includes s sub = true ↔ contains s sub.
Proof.
  induction s as [|c s IH]; cbn [includes].
  - rewrite orb_false_r, prefix_spec. split.
    + intros [after H]. exists "", after. done.
    + intros (x & y & H). destruct x; [|done]. by exists y.
  - rewrite orb_true_iff, prefix_spec, IH. split.
    + intros [[after H]|(x & y & H)].
      * exists "", after. done.
      * exists (String c x), y. by rewrite append_cons, H.
    + intros (x & y & H). destruct x as [|c' x].
      * left. by exists y.
      * right. exists x, y. rewrite append_cons in H. congruence.
Qed.

Lemma not_includes_spec s sub : includes s sub = false → ¬ contains s sub.
Proof.
  intros H Hc. apply includes_spec in Hc. congruence.
Qed.

(** ** The fallback generator *)

Lemma floor_scaled_range (u : Q) (width base : Z) :
  (0 <= u < 1)%Q → (0 < width)%Z →
  (base ≤ Qfloor (u * inject_Z width + inject_Z base) < base + width)%Z.
Proof.
  intros [H0 H1] Hw.
  assert (0 < inject_Z width)%Q as Hw' by (by rewrite (Zlt_Qlt 0 width) in Hw).
  split.
  - rewrite <- (Qfloor_Z base) at 1. apply Qfloor_resp_le.
    rewrite <- (Qplus_0_l (inject_Z base)) at 1.
    apply Qplus_le_l. apply Qmult_le_0_compat; [done|]. by apply Qlt_le_weak.
  - rewrite Zlt_Qlt. eapply Qle_lt_trans; [apply Qfloor_le|].
    rewrite inject_Z_plus, (Qplus_comm (inject_Z base)).
    apply Qplus_lt_l. rewrite <- (Qmult_1_l (inject_Z width)) at 2.
    by apply Qmult_lt_r.
Qed.

Lemma rating_tenths_range (v : Q) :
  (0 <= v < 1)%Q →
  toFixed1 (v * 1.5 + 3.5) =
    pretty (Qfloor ((v * 1.5 + 3.5) * 10 + (1 # 2)) `div` 10)%Z +:+ "." +:+
    pretty (Qfloor ((v * 1.5 + 3.5) * 10 + (1 # 2)) `mod` 10)%Z
  ∧ (35 ≤ Qfloor ((v * 1.5 + 3.5) * 10 + (1 # 2)) ≤ 50)%Z.
Proof.
  intros [H0 H1]. split.
  - unfold toFixed1. destruct (Qlt_le_dec _ 0) as [Hneg|Hpos]; [|done].
    exfalso. lra.
  - split.
    + rewrite <- (Qfloor_Z 35) at 1. apply Qfloor_resp_le.
      change (inject_Z 35) with 35%Q. lra.
    + apply Z.lt_succ_r. rewrite Zlt_Qlt. eapply Qle_lt_trans; [apply Qfloor_le|].
      change (inject_Z (Z.succ 50)) with 51%Q. lra.
Qed.

Lemma isPhone_spec productName : isPhone productName = true ↔ phone_keyword productName.
Proof.
  unfold isPhone, phone_keyword. rewrite !orb_true_iff, !includes_spec. tauto.
Qed.

Lemma isLaptop_spec productName : isLaptop productName = true ↔ laptop_keyword productName.
Proof.
  unfold isLaptop, laptop_keyword. rewrite !orb_true_iff, !includes_spec. tauto.
Qed.

Lemma category_spec productName :
  (category productName = PhoneLike ↔ phone_keyword productName)
  ∧ (category productName = LaptopLike ↔
       ¬ phone_keyword productName ∧ laptop_keyword productName)
  ∧ (category productName = Generic ↔
       ¬ phone_keyword productName ∧ ¬ laptop_keyword productName).
Proof.
  rewrite <- isPhone_spec, <- isLaptop_spec. unfold category.
  destruct (isPhone productName), (isLaptop productName); split_and!; split;
    try done; try (intros [? ?]; done).
Qed.

(** The generator always returns: a record of the name's category, two
    draws used, nothing else touched. *)
Lemma createIntelligentFallback_returns productName w :
  ∃ r,
    createIntelligentFallback productName w = (Ok r, use_draw (use_draw w))
    ∧ p_name r = Some productName
    ∧ p_features r = Some (category_features (category productName))
    ∧ p_specifications r =
        Some (category_specifications (category productName) productName)
    ∧ p_images r = None.
Proof.
  unfold createIntelligentFallback, category.
  destruct (isPhone productName); [|destruct (isLaptop productName)];
    eexists; (split; [reflexivity|]); done.
Qed.

(** One branch of the generator: the record is read off, the price bound
    comes from [floor_scaled_range], the rating from [rating_tenths_range]. *)
Local Ltac fallback_branch width base w :=
  eexists; split; [reflexivity|]; cbn;
  split_and!; [reflexivity|reflexivity|reflexivity|];
  intros Hdraws;
  pose proof (Hdraws (random_used w)) as Hu;
  pose proof (Hdraws (S (random_used w))) as Hv;
  destruct (rating_tenths_range _ Hv) as [Hfixed Htenths];
  pose proof (floor_scaled_range _ width base Hu eq_refl) as Hprice;
  eexists _, (Qfloor ((random_draws w (S (random_used w)) * 1.5 + 3.5) * 10 + (1 # 2)));
  split_and!; [reflexivity| | | |apply Htenths|apply Htenths];
    [ cbn in *; lia
    | cbn in *; lia
    | f_equal; cbn in Hfixed; by rewrite Hfixed, !append_assoc ].



(** ** The aggregator *)

Lemma scrape_one_returns productName results s w :
  ∃ results' w',
    scrape_one productName results s w = (Ok results', w')
    ∧ scrape_one_outcome productName results s w results' w'
    ∧ trace w' = trace w ++ [SourceCall s productName]
    ∧ same_collaborators w w'
    ∧ length results' =
        length results +
        (if contributes (scraper_runs w s productName (length (trace w))) then 1 else 0).
Proof.
  unfold scrape_one, scrape_one_outcome, contributes, try_catch, mbind, M_bind,
    scrapeProduct, logger_log. cbn.
  destruct (run_result (scraper_runs w s productName (length (trace w))))
    as [[d|]|e] eqn:Hrun; cbn.
  - eexists _, _. split; [reflexivity|]. cbn.
    split_and!; [done|by rewrite <- !(assoc_L (++))|done|done|].
    rewrite length_app. simpl. lia.
  - eexists _, _. split; [reflexivity|]. cbn.
    split_and!; [done|by rewrite <- !(assoc_L (++))|done|done|lia].
  - match goal with
    | |- context [createIntelligentFallback productName ?w0] =>
        destruct (createIntelligentFallback_returns productName w0) as (fb & Hfb & _);
        rewrite Hfb
    end.
    eexists _, _. split; [reflexivity|]. cbn.
    split_and!; [|by rewrite <- !(assoc_L (++))|done|done|].
    + exists fb. split; [done|]. eexists. exact Hfb.
    + rewrite length_app. simpl. lia.
Qed.

Lemma same_collaborators_refl w : same_collaborators w w.
Proof. by unfold same_collaborators. Qed.

Lemma same_collaborators_trans w1 w2 w3 :
  same_collaborators w1 w2 → same_collaborators w2 w3 → same_collaborators w1 w3.
Proof.
  unfold same_collaborators. intros (-> & -> & -> & ->) (-> & -> & -> & ->). done.
Qed.

Lemma contributions_cons w w' productName s scrapers :
  trace w' = trace w ++ [SourceCall s productName] →
  scraper_runs w' = scraper_runs w →
  contributions w productName (s :: scrapers) =
  (if contributes (scraper_runs w s productName (length (trace w))) then 1 else 0)
  + contributions w' productName scrapers.
Proof.
  intros Ht Hs. unfold contributions. rewrite imap_cons.
  assert (imap (source_run w productName ∘ S) scrapers
          = imap (source_run w' productName) scrapers) as ->.
  { apply imap_ext. intros i x _. unfold source_run. simpl.
    rewrite Hs, Ht, length_app. simpl. f_equal. lia. }
  unfold source_run at 1. rewrite Nat.add_0_r.
  destruct (contributes _) eqn:Hc.
  - rewrite filter_cons_True by done. done.
  - rewrite filter_cons_False; [done|]. by rewrite Hc.
Qed.

Lemma for_of_scrape_returns productName scrapers results w :
  ∃ results' w',
    for_of (scrape_one productName) results scrapers w = (Ok results', w')
    ∧ trace w' = trace w ++ ((λ s, SourceCall s productName) <$> scrapers)
    ∧ same_collaborators w w'
    ∧ length results' = length results + contributions w productName scrapers
    ∧ logs w `prefix_of` logs w'
    ∧ (∀ r, r ∈ results' →
         r ∈ results ∨ is_fallback productName r
         ∨ ∃ i s, scrapers !! i = Some s
                  ∧ run_result (source_run w productName i s) = Ok (Some r)).
Proof.
  revert results w. induction scrapers as [|s scrapers IH]; intros results w.
  - exists results, w. cbn. split_and!; [done| |apply same_collaborators_refl| |done|auto].
    + by rewrite (right_id_L [] (++)).
    + unfold contributions. simpl. lia.
  - destruct (scrape_one_returns productName results s w)
      as (results1 & w1 & Hrun1 & Hout & Ht1 & Hsame1 & Hlen1).
    destruct (IH results1 w1) as (results2 & w2 & Hrun2 & Ht2 & Hsame2 & Hlen2 & Hpre & Hprov).
    exists results2, w2.
    assert (logs w `prefix_of` logs w1 ∧
            ∀ r, r ∈ results1 → r ∈ results ∨ is_fallback productName r
              ∨ run_result (source_run w productName 0 s) = Ok (Some r)) as [Hpre1 Hprov1].
    { unfold scrape_one_outcome in Hout. unfold source_run. rewrite Nat.add_0_r.
      destruct (run_result (scraper_runs w s productName (length (trace w))))
        as [[d|]|e]; simpl in Hout.
      - destruct Hout as [-> ->]. split; [by eexists|].
        intros r [Hr|Hr%list_elem_of_singleton]%elem_of_app; [auto|subst r; auto].
      - destruct Hout as [-> ->]. split; [by eexists|]. auto.
      - destruct Hout as [(fb & -> & Hfb) ->]. split; [by eexists|].
        intros r [Hr|Hr%list_elem_of_singleton]%elem_of_app; [auto|subst r; auto]. }
    split_and!.
    + cbn [for_of]. unfold mbind, M_bind. by rewrite Hrun1.
    + rewrite Ht2, Ht1, fmap_cons, <- (assoc_L (++)). done.
    + by eapply same_collaborators_trans.
    + rewrite Hlen2, Hlen1.
      rewrite (contributions_cons w w1 productName s scrapers Ht1 (proj1 Hsame1)). lia.
    + by etrans.
    + intros r Hr. destruct (Hprov r Hr) as [Hin|[Hfb|(i & s' & Hi & Hres)]].
      * destruct (Hprov1 r Hin) as [?|[?|?]]; [by left|by right; left|].
        right; right. by exists 0, s.
      * by right; left.
      * right; right. exists (S i), s'. split; [done|].
        unfold source_run in *. destruct Hsame1 as [Hs1 _].
        rewrite Hs1, Ht1, length_app in Hres. simpl in Hres.
        by replace (length (trace w) + S i) with (length (trace w) + 1 + i) by lia.
Qed.

Lemma collect_results_returns productName scrapers w :
  ∃ results w',
    collect_results productName scrapers w = (Ok results, w')
    ∧ results ≠ []
    ∧ length results = max 1 (contributions w productName scrapers)
    ∧ trace w' = trace w ++ ((λ s, SourceCall s productName) <$> scrapers)
    ∧ same_collaborators w w'
    ∧ logs w `prefix_of` logs w'
    ∧ (contributions w productName scrapers = 0 →
         ∃ fallback, results = [fallback] ∧ is_fallback productName fallback
           ∧ last (logs w') = Some (creating_entry productName))
    ∧ (∀ r, r ∈ results →
         is_fallback productName r
         ∨ ∃ i s, scrapers !! i = Some s
                  ∧ run_result (source_run w productName i s) = Ok (Some r)).
Proof.
  destruct (for_of_scrape_returns productName scrapers [] w)
    as (results & w1 & Hloop & Ht & Hsame & Hlen & Hpre & Hprov).
  simpl in Hlen. unfold collect_results, mbind, M_bind. rewrite Hloop.
  destruct (decide (length results = 0)) as [Hz|Hnz].
  - apply nil_length_inv in Hz as ->. simpl in Hlen.
    unfold logger_log. cbn.
    match goal with
    | |- context [createIntelligentFallback productName ?w0] =>
        destruct (createIntelligentFallback_returns productName w0) as (fb & Hfb & _);
        rewrite Hfb
    end.
    eexists _, _. split; [reflexivity|]. cbn.
    split_and!; [done|lia|done|done| | |].
    + etrans; [exact Hpre|]. by eexists.
    + intros _. exists fb. split_and!; [done|by eexists|]. by rewrite last_snoc.
    + intros r ->%list_elem_of_singleton. left. by eexists.
  - exists results, w1. split; [done|].
    split_and!; [by intros ->|lia|done|done|done|lia|].
    intros r Hr. destruct (Hprov r Hr) as [Hin|[?|?]]; [|by left|by right].
    by apply elem_of_nil in Hin.
Qed.

(** The whole aggregator returns the merge of the collected list. *)
Lemma scrapeProductDataWithFallback_returns productName scrapers w :
  ∃ results w',
    collect_results productName scrapers w = (Ok results, w')
    ∧ scrapeProductDataWithFallback productName scrapers w
      = (Ok (mergeProductData results productName), w')
    ∧ trace w' = trace w ++ ((λ s, SourceCall s productName) <$> scrapers)
    ∧ same_collaborators w w'
    ∧ logs w `prefix_of` logs w'.
Proof.
  destruct (collect_results_returns productName scrapers w)
    as (results & w' & Hrun & _ & _ & Ht & Hsame & Hpre & _).
  exists results, w'. split_and!; try done.
  unfold scrapeProductDataWithFallback, mbind, M_bind. by rewrite Hrun.
Qed.

Lemma merge_loop_name rs m : name (foldl merge_result m rs) = name m.
Proof.
  revert m. induction rs as [|r rs IH]; intros m; simpl; [done|].
  rewrite IH. unfold merge_result.
  destruct (truthy (p_price r) && negb (str_truthy (price m))); cbn;
    destruct (truthy (p_rating r) && negb (str_truthy (rating m))); cbn;
    destruct (truthy (p_description r) && negb (str_truthy (description m))); cbn;
    destruct (truthy (p_availability r) && negb (str_truthy (availability m))); cbn;
    destruct (p_features r), (p_images r), (p_specifications r); reflexivity.
Qed.

Lemma mergeProductData_name rs productName :
  name (mergeProductData rs productName) = productName.
Proof. unfold mergeProductData. by rewrite merge_loop_name. Qed.

Lemma foldl_Set_add_fresh l s : NoDup (s ++ l) → foldl Set_add s l = s ++ l.
Proof.
  revert s. induction l as [|x l IH]; intros s Hnd; simpl.
  - by rewrite (right_id_L [] (++)).
  - assert (Set_add s x = s ++ [x]) as ->.
    { unfold Set_add. rewrite decide_False; [done|].
      apply NoDup_app in Hnd as (_ & Hdis & _). intros Hx. apply (Hdis x Hx). left. }
    rewrite IH; rewrite <- (assoc_L (++)); done.
Qed.

Lemma foldl_Set_add_known l s : (∀ x, x ∈ l → x ∈ s) → foldl Set_add s l = s.
Proof.
  induction l as [|x l IH]; intros Hin; simpl; [done|].
  assert (Set_add s x = s) as ->.
  { unfold Set_add. rewrite decide_True; [done|]. apply Hin. left. }
  apply IH. intros y Hy. apply Hin. by right.
Qed.

Lemma merge_loop_same_list f (F : list string) rs m :
  NoDup F →
  (∀ r, r ∈ rs → list_in f r = Some F) →
  list_out f m = [] ∨ list_out f m = F →
  rs ≠ [] ∨ list_out f m = F →
  list_out f (foldl merge_result m rs) = F.
Proof.
  intros HF. revert m. induction rs as [|r rs IH]; intros m Hall Hm Hne; simpl.
  - by destruct Hne.
  - assert (list_out f (merge_result m r) = F) as Hstep.
    { rewrite merge_result_list, (Hall r) by left. unfold new_Set.
      destruct Hm as [-> | ->].
      - simpl. rewrite foldl_Set_add_fresh; done.
      - rewrite foldl_app, (foldl_Set_add_fresh F []) by done. simpl.
        by apply foldl_Set_add_known. }
    apply IH; [|by right|by right]. intros r' Hr'. apply Hall. by right.
Qed.

Lemma is_fallback_features productName r :
  is_fallback productName r →
  p_features r = Some (category_features (category productName)).
Proof.
  intros [w Hw].
  destruct (createIntelligentFallback_returns productName w) as (r' & Hr' & _ & Hf & _).
  congruence.
Qed.

Lemma category_features_NoDup c : NoDup (category_features c).
Proof. destruct c; apply (bool_decide_unpack _); by vm_compute. Qed.

(** C4 (amended). The aggregator never raises and its output carries the
    product name it was given (so a non-empty name stays non-empty).  A
    scraper that throws makes the aggregator log a warning and append a
    fallback-generator record; a scraper that answers with nothing makes it
    append nothing and log no warning; a scraper that returns a record has
    it appended.  If the list is still empty after all scrapers, exactly one
    fallback-generator record is appended.  The list handed to the merge
    engine is therefore never empty, and when every scraper fails the
    merged record has the features of the name's category. *)
Theorem aggregator_never_raises (productName : string) (scrapers : list Method)
    (w : World) :
  ∃ results w',
    collect_results productName scrapers w = (Ok results, w')
    ∧ scrapeProductDataWithFallback productName scrapers w
      = (Ok (mergeProductData results productName), w')
    ∧ results ≠ []
    ∧ length results = max 1 (contributions w productName scrapers)
    ∧ name (mergeProductData results productName) = productName
    ∧ (productName ≠ "" → name (mergeProductData results productName) ≠ "")
    ∧ (contributions w productName scrapers = 0 →
         ∃ fallback, results = [fallback] ∧ is_fallback productName fallback
           ∧ last (logs w') = Some (creating_entry productName))
    ∧ (every_source_fails w productName scrapers →
         Forall (is_fallback productName) results
         ∧ features (mergeProductData results productName)
           = category_features (category productName))
    ∧ (∀ results0 s w0, ∃ results1 w1,
         scrape_one productName results0 s w0 = (Ok results1, w1)
         ∧ scrape_one_outcome productName results0 s w0 results1 w1).
Proof.
  destruct (collect_results_returns productName scrapers w)
    as (results & w' & Hrun & Hne & Hlen & _ & _ & _ & Hzero & Hprov).
  exists results, w'.
  split_and!; [done| |done|done|apply mergeProductData_name| | | |].
  - unfold scrapeProductDataWithFallback, mbind, M_bind. by rewrite Hrun.
  - by rewrite mergeProductData_name.
  - intros Hz. destruct (Hzero Hz) as (fb & ? & ? & ?). by exists fb.
  - intros Hfail.
    assert (Forall (is_fallback productName) results) as Hall.
    { apply Forall_forall. intros r Hr.
      destruct (Hprov r Hr) as [?|(i & s & Hi & Hres)]; [done|].
      by destruct (Hfail i s r Hi). }
    split; [done|].
    apply (merge_loop_same_list Features); [apply category_features_NoDup| |by left|by left].
    intros r Hr. apply is_fallback_features. by eapply Forall_forall in Hall.
  - intros results0 s w0.
    destruct (scrape_one_returns productName results0 s w0)
      as (results1 & w1 & ? & ? & _). by exists results1, w1.
Qed.

Lemma aggregator_never_raises_witness :
  every_source_fails failing_world "iPhone 15 Pro" [Playwright; Puppeteer]
  ∧ ∃ results w',
      scrapeProductDataWithFallback "iPhone 15 Pro" [Playwright; Puppeteer] failing_world
      = (Ok (mergeProductData results "iPhone 15 Pro"), w')
      ∧ name (mergeProductData results "iPhone 15 Pro") ≠ ""
      ∧ features (mergeProductData results "iPhone 15 Pro") = phone_features.
Proof.
  assert (every_source_fails failing_world "iPhone 15 Pro" [Playwright; Puppeteer])
    as Hfail by (intros i s d _; simpl; discriminate).
  split; [exact Hfail|].
  destruct (aggregator_never_raises "iPhone 15 Pro" [Playwright; Puppeteer] failing_world)
    as (results & w' & _ & Hrun & _ & _ & _ & Hname & _ & Hfeatures & _).
  exists results, w'. split; [exact Hrun|]. split.
  - apply Hname. discriminate.
  - destruct (Hfeatures Hfail) as [_ Hf]. exact Hf.
Defined.

(** C4 as first stated fails: with a first scraper that answers with
    nothing and a second one that returns a record, the collected list is
    that one record, no fallback record stands in for the empty answer, and
    no warning is logged.  (And the name of the output is the name given:
    empty for the empty name.) *)
Lemma empty_answer_gets_no_fallback :
  run_result (scraper_runs quiet_world Playwright "Desk Lamp" 0) = Ok None
  ∧ (∃ w',
       collect_results "Desk Lamp" [Playwright; Puppeteer] quiet_world
       = (Ok [lamp_record], w')
       ∧ Forall (λ entry, level entry ≠ LWarn) (logs w')
       ∧ ¬ is_fallback "Desk Lamp" lamp_record)
  ∧ (∃ merged,
       (scrapeProductDataWithFallback "" [Playwright] quiet_world).1 = Ok merged
       ∧ name merged = "").
Proof.
  split; [reflexivity|]. split.
  - eexists. split; [by vm_compute|]. split.
    + repeat (apply Forall_cons; split; [discriminate|]). apply Forall_nil_2.
    + intros Hfb%is_fallback_features. discriminate.
  - eexists. split; [by vm_compute|]. reflexivity.
Qed.



(** ** The fallback renderers *)

Lemma or_else_truthy a b : a ≠ "" → or_else a b = a.
Proof. intros H. unfold or_else. by rewrite (proj2 (str_truthy_true a) H). Qed.

Lemma or_else_empty b : or_else "" b = b.
Proof. reflexivity. Qed.

Lemma join_nonempty sep l :
  l ≠ [] → (∀ x, x ∈ l → x ≠ "") → join sep l ≠ "".
Proof.
  destruct l as [|x l]; [done|]. intros _ Hall.
  assert (x ≠ "") as Hx by (apply Hall; left).
  destruct x as [|c x]; [done|]. destruct l; simpl; [done|].
  rewrite append_cons. done.
Qed.

Lemma render_features_spec fs :
  (∀ feature, feature ∈ fs → contains (render_features fs) ("- " +:+ feature))
  ∧ (fs = [] → render_features fs = "- Features not available").
Proof.
  split; [|by intros ->].
  intros feature Hin. unfold render_features. rewrite or_else_truthy.
  - apply contains_join, list_elem_of_fmap. by exists feature.
  - apply join_nonempty.
    + intros Hnil%fmap_nil_inv. subst. by apply elem_of_nil in Hin.
    + intros x (f & -> & _)%list_elem_of_fmap. done.
Qed.

Lemma render_specifications_spec specs :
  (∀ key value, (key, value) ∈ specs →
     contains (render_specifications specs) ("- **" +:+ key +:+ "**: " +:+ value))
  ∧ (specs = [] → render_specifications specs = "- Specifications not available").
Proof.
  split; [|by intros ->].
  intros key value Hin. unfold render_specifications. rewrite or_else_truthy.
  - apply contains_join, list_elem_of_fmap. by exists (key, value).
  - apply join_nonempty.
    + intros Hnil%fmap_nil_inv. subst. by apply elem_of_nil in Hin.
    + intros x (kv & -> & _)%list_elem_of_fmap. done.
Qed.

(** The text contains its [i]-th line, hence whatever that line contains. *)
Local Ltac in_line i :=
  eapply contains_trans;
    [apply contains_join, (list_elem_of_lookup_2 _ i); reflexivity|].

Lemma comparison_renders_first p1 p2 :
  renders_in_comparison (generateIntelligentFallbackComparison p1 p2) p1.
Proof.
  unfold renders_in_comparison, generateIntelligentFallbackComparison.
  split_and!.
  - in_line 2. apply contains_app_r, contains_app_l, contains_refl.
  - intros H. in_line 5. rewrite or_else_truthy by done. apply contains_refl.
  - intros H. in_line 5. rewrite H, or_else_empty. apply contains_refl.
  - intros f Hf. in_line 11. by apply render_features_spec.
  - intros H. in_line 11. rewrite (proj2 (render_features_spec _) H). apply contains_refl.
  - intros k v Hkv. in_line 19. by apply render_specifications_spec.
  - intros H. in_line 19. rewrite (proj2 (render_specifications_spec _) H).
    apply contains_refl.
  - intros H. in_line 25. rewrite or_else_truthy by done. apply contains_refl.
  - intros H. in_line 25. rewrite H, or_else_empty. apply contains_refl.
Qed.

Lemma comparison_renders_second p1 p2 :
  renders_in_comparison (generateIntelligentFallbackComparison p1 p2) p2.
Proof.
  unfold renders_in_comparison, generateIntelligentFallbackComparison.
  split_and!.
  - in_line 2. do 3 apply contains_app_r. apply contains_refl.
  - intros H. in_line 6. rewrite or_else_truthy by done. apply contains_refl.
  - intros H. in_line 6. rewrite H, or_else_empty. apply contains_refl.
  - intros f Hf. in_line 14. by apply render_features_spec.
  - intros H. in_line 14. rewrite (proj2 (render_features_spec _) H). apply contains_refl.
  - intros k v Hkv. in_line 22. by apply render_specifications_spec.
  - intros H. in_line 22. rewrite (proj2 (render_specifications_spec _) H).
    apply contains_refl.
  - intros H. in_line 26. rewrite or_else_truthy by done. apply contains_refl.
  - intros H. in_line 26. rewrite H, or_else_empty. apply contains_refl.
Qed.

Lemma readme_renders_first p1 p2 comparison :
  renders_in_readme (generateIntelligentFallbackReadme p1 p2 comparison) p1.
Proof.
  unfold renders_in_readme, generateIntelligentFallbackReadme.
  split_and!.
  - in_line 7. apply contains_app_r, contains_refl.
  - intros H. in_line 8. rewrite or_else_truthy by done. apply contains_refl.
  - intros H. in_line 8. rewrite H, or_else_empty. apply contains_refl.
  - intros H. in_line 9. rewrite or_else_truthy by done. apply contains_refl.
  - intros H. in_line 9. rewrite H, or_else_empty. apply contains_refl.
  - intros H. in_line 10. rewrite or_else_truthy by done. apply contains_refl.
  - intros H. in_line 10. rewrite H, or_else_empty. apply contains_refl.
  - intros f Hf. in_line 20. by apply render_features_spec.
  - intros H. in_line 20. rewrite (proj2 (render_features_spec _) H). apply contains_refl.
Qed.

Lemma readme_renders_second p1 p2 comparison :
  renders_in_readme (generateIntelligentFallbackReadme p1 p2 comparison) p2.
Proof.
  unfold renders_in_readme, generateIntelligentFallbackReadme.
  split_and!.
  - in_line 12. apply contains_app_r, contains_refl.
  - intros H. in_line 13. rewrite or_else_truthy by done. apply contains_refl.
  - intros H. in_line 13. rewrite H, or_else_empty. apply contains_refl.
  - intros H. in_line 14. rewrite or_else_truthy by done. apply contains_refl.
  - intros H. in_line 14. rewrite H, or_else_empty. apply contains_refl.
  - intros H. in_line 15. rewrite or_else_truthy by done. apply contains_refl.
  - intros H. in_line 15. rewrite H, or_else_empty. apply contains_refl.
  - intros f Hf. in_line 23. by apply render_features_spec.
  - intros H. in_line 23. rewrite (proj2 (render_features_spec _) H). apply contains_refl.
Qed.

Lemma readme_embeds_comparison p1 p2 comparison :
  contains (generateIntelligentFallbackReadme p1 p2 comparison) comparison.
Proof.
  unfold generateIntelligentFallbackReadme. in_line 27. apply contains_refl.
Qed.

Lemma generateComparisonWithFallback_returns p1 p2 w :
  ∃ text w',
    generateComparisonWithFallback p1 p2 w = (Ok text, w')
    ∧ trace w' = trace w ++ [ModelCall (ComparisonPrompt p1 p2)]
    ∧ same_collaborators w w'
    ∧ logs w `prefix_of` logs w'
    ∧ match model_runs w (ComparisonPrompt p1 p2) (length (trace w)) with
      | Ok answer => text = answer
      | Throw e =>
          text = generateIntelligentFallbackComparison p1 p2
          ∧ logs w' = logs w ++ [attempt_comparison_entry; failed_comparison_entry e]
      end.
Proof.
  unfold generateComparisonWithFallback, try_catch, mbind, M_bind, generateText,
    logger_log. cbn.
  destruct (model_runs w (ComparisonPrompt p1 p2) (length (trace w))) as [answer|e]; cbn.
  - eexists _, _. split; [reflexivity|]. cbn. split_and!; try done.
    rewrite <- (assoc_L (++)). by eexists.
  - eexists _, _. split; [reflexivity|]. cbn. split_and!; try done.
    + rewrite <- (assoc_L (++)). by eexists.
    + by rewrite <- (assoc_L (++)).
Qed.

Lemma generateReadmeWithFallback_returns p1 p2 comparison w :
  ∃ text w',
    generateReadmeWithFallback p1 p2 comparison w = (Ok text, w')
    ∧ trace w' = trace w ++ [ModelCall (ReadmePrompt (name p1) (name p2) comparison)]
    ∧ same_collaborators w w'
    ∧ logs w `prefix_of` logs w'
    ∧ match model_runs w (ReadmePrompt (name p1) (name p2) comparison)
              (length (trace w)) with
      | Ok answer => text = answer
      | Throw e =>
          text = generateIntelligentFallbackReadme p1 p2 comparison
          ∧ logs w' = logs w ++ [attempt_readme_entry; failed_readme_entry e]
      end.
Proof.
  unfold generateReadmeWithFallback, try_catch, mbind, M_bind, generateText,
    logger_log. cbn.
  destruct (model_runs w (ReadmePrompt (name p1) (name p2) comparison)
              (length (trace w))) as [answer|e]; cbn.
  - eexists _, _. split; [reflexivity|]. cbn. split_and!; try done.
    rewrite <- (assoc_L (++)). by eexists.
  - eexists _, _. split; [reflexivity|]. cbn. split_and!; try done.
    + rewrite <- (assoc_L (++)). by eexists.
    + by rewrite <- (assoc_L (++)).
Qed.




(** ** The handler *)

Lemma methods_includes_searchable v id w :
  searchable v → methods_includes v id w = (Ok (has_method v id), w).
Proof. by destruct v. Qed.

Lemma methods_includes_unsearchable v :
  ¬ searchable v → ∃ e, ∀ id' w', methods_includes v id' w' = (Throw e, w').
Proof.
  destruct v; simpl; intros H; try (by destruct H); by eexists.
Qed.

#[local] Opaque scrapeProductDataWithFallback generateComparisonWithFallback
  generateReadmeWithFallback methods_includes setup_steps.

Lemma POST_malformed e w :
  POST (Malformed e) w
  = (Ok (failure_response e (logs w ++ [failure_entry e])),
     add_logs [failure_entry e] (add_event (ConsoleError e) w)).
Proof. reflexivity. Qed.

Lemma POST_names_required req w :
  truthy (product1 req) = false ∨ truthy (product2 req) = false →
  POST (Json req) w = (Ok names_required_response, w).
Proof.
  intros H. unfold POST, try_catch, mbind, M_bind. cbn.
  by destruct H as [-> | ->]; rewrite ?orb_true_r.
Qed.

(** Requests that carry both product names. *)
Section NamedRequest.

Context (req : Request) (w : World).
Hypothesis H1 : truthy (product1 req) = true.
Hypothesis H2 : truthy (product2 req) = true.

Lemma POST_unconfigured :
  key_missing (OPENAI_API_KEY w) = true →
  POST (Json req) w = (Ok configuration_response, add_logs [key_entry] w).
Proof.
  intros Hk. unfold POST, try_catch, mbind, M_bind. cbn.
  rewrite H1, H2. cbn. by rewrite Hk.
Qed.

Lemma POST_unsearchable :
  key_missing (OPENAI_API_KEY w) = false →
  ¬ searchable (methods req) →
  ∃ e,
    (∀ id w', methods_includes (methods req) id w' = (Throw e, w'))
    ∧ POST (Json req) w
      = (Ok (failure_response e
               (logs w ++ [comparison_start_entry req; failure_entry e])),
         add_logs [failure_entry e]
           (add_event (ConsoleError e) (add_logs [comparison_start_entry req] w))).
Proof.
  intros Hk Hs.
  destruct (methods_includes_unsearchable (methods req) Hs) as [e He].
  exists e. split; [done|].
  unfold POST, try_catch, mbind, M_bind. cbn.
  rewrite H1, H2. cbn. rewrite Hk, He. cbn.
  by rewrite <- (assoc_L (++)).
Qed.

Lemma POST_searchable :
  key_missing (OPENAI_API_KEY w) = false →
  searchable (methods req) →
  let w0 := add_logs [comparison_start_entry req] w in
  let scrapers := selected_scrapers (methods req) in
  (scrapers = [] ∧ POST (Json req) w = (Ok no_methods_response, w0))
  ∨ (scrapers ≠ []
     ∧ ∃ d1 d2 c r w3,
         POST (Json req) w
         = (Ok {| status := 200; body := ComparisonResult d1 d2 c r (logs w3) |},
            add_logs [completion_entry] w3)
         ∧ logs w0 `prefix_of` logs w3
         ∧ name d1 = default "" (product1 req)
         ∧ name d2 = default "" (product2 req)).
Proof.
  intros Hk Hs w0 scrapers.
  unfold POST, try_catch, mbind, M_bind. cbn.
  rewrite H1, H2. cbn. rewrite Hk.
  rewrite !(methods_includes_searchable _ _ _ Hs). cbn.
  match goal with
  | |- context [length ?l = 0] =>
      assert (l = scrapers) as Hsel
        by (unfold scrapers, selected_scrapers;
            destruct (has_method (methods req) "scrapybara"),
                     (has_method (methods req) "playwright"),
                     (has_method (methods req) "puppeteer"); reflexivity);
      rewrite !Hsel; clear Hsel
  end.
  destruct (decide (length scrapers = 0)) as [Hz|Hnz].
  { left. split; [by apply nil_length_inv|done]. }
  right. split; [by intros Hnil; rewrite Hnil in Hnz|].
  match goal with
  | |- context [scrapeProductDataWithFallback ?n scrapers ?wx] =>
      destruct (scrapeProductDataWithFallback_returns n scrapers wx)
        as (rs1 & w1 & _ & Hrun1 & _ & _ & Hpre1);
      rewrite Hrun1
  end.
  match goal with
  | |- context [scrapeProductDataWithFallback ?n scrapers ?wx] =>
      destruct (scrapeProductDataWithFallback_returns n scrapers wx)
        as (rs2 & w2 & _ & Hrun2 & _ & _ & Hpre2);
      rewrite Hrun2
  end.
  match goal with
  | |- context [generateComparisonWithFallback ?a ?b ?wx] =>
      destruct (generateComparisonWithFallback_returns a b wx)
        as (c & w3 & Hrun3 & _ & _ & Hpre3 & _);
      rewrite Hrun3
  end.
  match goal with
  | |- context [generateReadmeWithFallback ?a ?b ?t ?wx] =>
      destruct (generateReadmeWithFallback_returns a b t wx)
        as (r & w4 & Hrun4 & _ & _ & Hpre4 & _);
      rewrite Hrun4
  end.
  eexists _, _, c, r, w4. split; [reflexivity|].
  split_and!; [|apply mergeProductData_name..].
  etrans; [exact Hpre1|]. etrans; [exact Hpre2|]. etrans; [|exact Hpre4].
  etrans; [|exact Hpre3]. by eexists.
Qed.

End NamedRequest.

(** C7 (amended). For a request with both product names and an empty
    methods list, and a configured credential, the handler answers with the
    client error for the source selection (status 400); no scraper and no
    model is invoked, no draw is taken, and the only log entry written is
    the one announcing the comparison, with the names and the empty list.
    When the credential is not configured the same request gets the
    configuration error (status 500) instead, again with no invocation. *)
Theorem empty_methods_rejected (req : Request) (w : World) :
  truthy (product1 req) = true → truthy (product2 req) = true →
  methods req = VArr [] →
  (key_missing (OPENAI_API_KEY w) = false →
     ∃ w', POST (Json req) w = (Ok no_methods_response, w')
           ∧ status no_methods_response = 400
           ∧ trace w' = trace w
           ∧ random_used w' = random_used w
           ∧ logs w' = logs w ++ [comparison_start_entry req])
  ∧ (key_missing (OPENAI_API_KEY w) = true →
     ∃ w', POST (Json req) w = (Ok configuration_response, w')
           ∧ status configuration_response = 500
           ∧ trace w' = trace w
           ∧ random_used w' = random_used w
           ∧ logs w' = logs w ++ [key_entry]).
Proof.
  intros H1 H2 Hm. split; intros Hk.
  - destruct (POST_searchable req w H1 H2 Hk) as [[_ Hrun]|[Hsel _]].
    + by rewrite Hm.
    + eexists. split; [exact Hrun|]. done.
    + rewrite Hm in Hsel. by destruct Hsel.
  - eexists. split; [by apply POST_unconfigured|]. done.
Qed.

Lemma empty_methods_rejected_witness :
  ∃ w', POST (Json lamps_no_methods) failing_world = (Ok no_methods_response, w')
        ∧ trace w' = trace failing_world
        ∧ logs w' = logs failing_world ++ [comparison_start_entry lamps_no_methods].
Proof.
  destruct (empty_methods_rejected lamps_no_methods failing_world eq_refl eq_refl eq_refl)
    as [Hok _].
  destruct (Hok ltac:(vm_compute; reflexivity)) as (w' & Hrun & _ & Ht & _ & Hl).
  exists w'. split; [exact Hrun|]. split; [exact Ht|exact Hl].
Defined.

(** C7 as first stated fails: with both names and an empty methods list
    but no credential configured, the answer is the configuration error
    with status 500, not a client validation error. *)
Lemma empty_methods_without_credential :
  truthy (product1 lamps_no_methods) = true
  ∧ truthy (product2 lamps_no_methods) = true
  ∧ methods lamps_no_methods = VArr []
  ∧ OPENAI_API_KEY failing_world_with_lamp = None
  ∧ (POST (Json lamps_no_methods) failing_world_with_lamp).1 = Ok configuration_response
  ∧ status configuration_response = 500.
Proof. split_and!; reflexivity. Qed.

(** C10 (amended). For a request with both product names and a configured
    credential: when [methods] is missing, null, a boolean, a number or an
    object, the membership test throws and the handler answers with the
    generic server error (status 500, with the error text, the thrown
    message and the logs up to the error entry), not with the client error
    for the source selection.  When [methods] is a string the membership
    tests are substring searches in it and nothing is thrown: the answer is
    the client error for the source selection when no identifier occurs in
    the string, and the comparison result otherwise. *)
Theorem methods_without_includes_fail (req : Request) (w : World) :
  truthy (product1 req) = true → truthy (product2 req) = true →
  key_missing (OPENAI_API_KEY w) = false →
  (¬ searchable (methods req) →
     ∃ e w',
       POST (Json req) w
       = (Ok (failure_response e
                (logs w ++ [comparison_start_entry req; failure_entry e])), w')
       ∧ status (failure_response e
                   (logs w ++ [comparison_start_entry req; failure_entry e])) = 500
       ∧ trace w' = trace w ++ [ConsoleError e])
  ∧ (∀ s, methods req = VStr s →
       ∃ resp w',
         POST (Json req) w = (Ok resp, w')
         ∧ ((includes s "scrapybara" || includes s "playwright" || includes s "puppeteer"
               = false
             ∧ resp = no_methods_response)
            ∨ (includes s "scrapybara" || includes s "playwright" || includes s "puppeteer"
                 = true
               ∧ status resp = 200))).
Proof.
  intros H1 H2 Hk. split.
  - intros Hs. destruct (POST_unsearchable req w H1 H2 Hk Hs) as (e & _ & Hrun).
    eexists e, _. split; [exact Hrun|]. done.
  - intros s Hm.
    destruct (POST_searchable req w H1 H2 Hk) as [[Hsel Hrun]|[Hsel Hrun]].
    + by rewrite Hm.
    + eexists _, _. split; [exact Hrun|]. left. split; [|done].
      rewrite Hm in Hsel. unfold selected_scrapers in Hsel. simpl in Hsel.
      by destruct (includes s "scrapybara"), (includes s "playwright"),
                  (includes s "puppeteer").
    + destruct Hrun as (d1 & d2 & c & r & w3 & Hrun & _).
      eexists _, _. split; [exact Hrun|]. right. split; [|done].
      rewrite Hm in Hsel. unfold selected_scrapers in Hsel. simpl in Hsel.
      by destruct (includes s "scrapybara"), (includes s "playwright"),
                  (includes s "puppeteer").
Qed.

Lemma methods_without_includes_fail_witness :
  ∃ e w',
    POST (Json lamps_missing_methods) failing_world
    = (Ok (failure_response e
             (logs failing_world
              ++ [comparison_start_entry lamps_missing_methods; failure_entry e])), w')
    ∧ trace w' = trace failing_world ++ [ConsoleError e].
Proof.
  destruct (methods_without_includes_fail lamps_missing_methods failing_world
              eq_refl eq_refl ltac:(vm_compute; reflexivity)) as [Hfail _].
  destruct (Hfail ltac:(simpl; tauto)) as (e & w' & Hrun & _ & Ht).
  exists e, w'. split; [exact Hrun|exact Ht].
Defined.

(** C10 as first stated fails: with both names, a configured credential
    and a [methods] that is a string, hence not an array, the answer is the
    client error for the source selection with status 400, not the
    generic server error. *)
Lemma string_methods_not_server_error :
  methods lamps_string_methods = VStr "none"
  ∧ key_missing (OPENAI_API_KEY failing_world) = false
  ∧ (POST (Json lamps_string_methods) failing_world).1 = Ok no_methods_response
  ∧ status no_methods_response = 400.
Proof. split_and!; by vm_compute. Qed.




(* ================================================================== *)
(** * Further properties of the code *)
(* ================================================================== *)

#[local] Transparent scrapeProductDataWithFallback generateComparisonWithFallback
  generateReadmeWithFallback methods_includes setup_steps.

(** ** Order kept by the merge *)

Lemma new_Set_snoc l x : new_Set (l ++ [x]) = Set_add (new_Set l) x.
Proof. unfold new_Set. by rewrite foldl_snoc. Qed.

Lemma new_Set_first_occurrences l : new_Set l = first_occurrences l.
Proof.
  unfold first_occurrences.
  induction l as [|x l IH] using rev_ind; [done|].
  rewrite new_Set_snoc, reverse_snoc, IH. cbn [remove_dups].
  unfold Set_add.
  destruct (decide_rel elem_of x (reverse l)) as [Hin|Hin].
  - rewrite decide_True; [done|]. by apply elem_of_reverse, elem_of_remove_dups.
  - rewrite decide_False; [by rewrite reverse_cons|].
    intros Hx. apply Hin. by apply elem_of_remove_dups, elem_of_reverse.
Qed.

Lemma new_Set_fixed l : NoDup l → new_Set l = l.
Proof. intros H. unfold new_Set. by rewrite foldl_Set_add_fresh. Qed.

Lemma new_Set_absorb a b : new_Set (new_Set a ++ b) = new_Set (a ++ b).
Proof.
  unfold new_Set at 1 3. rewrite !foldl_app.
  fold (new_Set a). fold (new_Set (new_Set a)).
  by rewrite (new_Set_fixed (new_Set a)) by apply new_Set_NoDup.
Qed.

Lemma merge_loop_list_order f rs m :
  NoDup (list_out f m) →
  list_out f (foldl merge_result m rs) = new_Set (list_out f m ++ all_listed f rs).
Proof.
  unfold all_listed. revert m. induction rs as [|r rs IH]; intros m Hm.
  - simpl. by rewrite (right_id_L [] (++)), new_Set_fixed.
  - cbn [foldl]. rewrite fmap_cons. cbn [concat]. rewrite IH.
    + rewrite merge_result_list.
      destruct (list_in f r) as [l|] eqn:E.
      * assert (list_of f r = l) as -> by (unfold list_of; by rewrite E).
        by rewrite new_Set_absorb, <- (assoc_L (++)).
      * assert (list_of f r = []) as -> by (unfold list_of; by rewrite E). done.
    + rewrite merge_result_list. destruct (list_in f r); [apply new_Set_NoDup|done].
Qed.

(** X1. The features and the images of the merged record keep first-seen
    order: the merged list is the concatenation of the inputs' lists, in
    input order, with every occurrence after the first one removed. *)
Theorem merge_lists_first_seen_order (f : ListField) (rs : list PartialRecord)
    (productName : string) :
  list_out f (mergeProductData rs productName) = first_occurrences (all_listed f rs).
Proof.
  unfold mergeProductData. rewrite merge_loop_list_order.
  - destruct f; apply new_Set_first_occurrences.
  - destruct f; apply NoDup_nil_2.
Qed.

Lemma obj_assign_keys (source target : Obj) :
  (obj_assign target source).*1 = foldl Set_add target.*1 source.*1.
Proof.
  unfold obj_assign. revert target.
  induction source as [|[k v] source IH]; intros target; [done|].
  cbn [foldl fmap list_fmap]. rewrite IH. f_equal. apply obj_set_keys.
Qed.

Lemma spread2_keys (a b : Obj) : (spread2 a b).*1 = new_Set (a.*1 ++ b.*1).
Proof.
  unfold spread2, new_Set. by rewrite !obj_assign_keys, foldl_app.
Qed.

Lemma merge_loop_keys rs m :
  NoDup (specifications m).*1 →
  (specifications (foldl merge_result m rs)).*1
  = new_Set ((specifications m).*1 ++ all_keys rs).
Proof.
  unfold all_keys. revert m. induction rs as [|r rs IH]; intros m Hm.
  - simpl. by rewrite (right_id_L [] (++)), new_Set_fixed.
  - cbn [foldl]. rewrite fmap_cons. cbn [concat]. rewrite IH.
    + rewrite merge_result_specifications.
      destruct (p_specifications r) as [specs|] eqn:E.
      * assert (specs_of r = specs) as -> by (unfold specs_of; by rewrite E).
        by rewrite spread2_keys, new_Set_absorb, <- (assoc_L (++)).
      * assert (specs_of r = []) as -> by (unfold specs_of; by rewrite E). done.
    + rewrite merge_result_specifications.
      destruct (p_specifications r); [apply spread2_NoDup|done].
Qed.


(** ** What the merge takes from its inputs *)

Lemma first_nonempty_from_input vs :
  first_nonempty vs = "" ∨ Some (first_nonempty vs) ∈ vs.
Proof.
  induction vs as [|[v|] vs IH]; simpl; [by left| |].
  - destruct (String.eqb_spec v "") as [->|Hv].
    + destruct IH as [?|?]; [by left|right; by right].
    + right. left.
  - destruct IH as [?|?]; [by left|right; by right].
Qed.

Lemma obj_map_snoc (o : Obj) k v : obj_map (o ++ [(k, v)]) = <[k:=v]> (obj_map o).
Proof. unfold obj_map. by rewrite foldl_snoc. Qed.

Lemma obj_map_lookup_entry (o : Obj) k v : obj_map o !! k = Some v → (k, v) ∈ o.
Proof.
  induction o as [|[k' v'] o IH] using rev_ind; [done|].
  rewrite obj_map_snoc. intros [[-> ->]|[_ H]]%lookup_insert_Some.
  - apply elem_of_app. right. left.
  - apply elem_of_app. left. by apply IH.
Qed.

Lemma overlay_fold_lookup_source rs (acc : gmap string string) k v :
  foldl (λ acc r, overlay acc (obj_map (specs_of r))) acc rs !! k = Some v →
  acc !! k = Some v ∨ ∃ r, r ∈ rs ∧ obj_map (specs_of r) !! k = Some v.
Proof.
  revert acc. induction rs as [|r rs IH]; intros acc; simpl; [by left|].
  intros [H|(r' & Hr' & H)]%IH.
  - unfold overlay in H. apply lookup_union_Some_raw in H as [H|[_ H]].
    + right. exists r. split; [left|done].
    + by left.
  - right. exists r'. split; [by right|done].
Qed.

(** X3. The merge invents nothing: the name of the merged record is the
    product name it was given, whatever names the inputs carry; each of its
    four scalar fields is empty or is the value of that field in some input;
    and each of its specification entries is, key and value, an entry of
    some input. *)
Theorem merge_takes_values_from_inputs (rs : list PartialRecord) (productName : string) :
  name (mergeProductData rs productName) = productName
  ∧ (∀ f, scalar_out f (mergeProductData rs productName) = ""
          ∨ ∃ r, r ∈ rs
                 ∧ scalar_in f r = Some (scalar_out f (mergeProductData rs productName)))
  ∧ (∀ key value,
       (key, value) ∈ specifications (mergeProductData rs productName) →
       ∃ r, r ∈ rs ∧ (key, value) ∈ specs_of r).
Proof.
  split_and!.
  - apply mergeProductData_name.
  - intros f. unfold mergeProductData. rewrite merge_loop_scalar.
    assert (str_truthy (scalar_out f (merged_init productName)) = false) as ->
      by (by destruct f).
    destruct (first_nonempty_from_input (scalar_in f <$> rs)) as [H|H]; [by left|].
    right. apply list_elem_of_fmap in H as (r & Hr & Hin). by exists r.
  - intros key value Hin.
    destruct (merge_loop_specifications rs (merged_init productName)) as [Hnd Heq].
    { simpl. apply NoDup_nil_2. }
    fold (mergeProductData rs productName) in Hnd, Heq.
    apply (elem_of_list_to_map_1 (M:=gmap string)) in Hin; [|done].
    rewrite <- obj_map_unique_keys, Heq in Hin by done.
    apply overlay_fold_lookup_source in Hin as [Hin|(r & Hr & Hin)]; [done|].
    exists r. split; [done|]. by apply obj_map_lookup_entry.
Qed.

Lemma merge_takes_values_from_inputs_witness :
  ∃ r, r ∈ [record_A; record_B] ∧ ("Size", "M") ∈ specs_of r.
Proof.
  destruct (merge_takes_values_from_inputs [record_A; record_B] "Widget")
    as (_ & _ & Hspec).
  apply (Hspec "Size" "M"). vm_compute. right. left.
Defined.

(** ** Merging the same inputs again *)

Lemma ProductRecord_eq (a b : ProductRecord) :
  name a = name b → price a = price b → rating a = rating b →
  features a = features b → description a = description b →
  availability a = availability b → images a = images b →
  specifications a = specifications b → a = b.
Proof. destruct a, b; simpl; by intros -> -> -> -> -> -> -> ->. Qed.

Lemma first_nonempty_app a b :
  first_nonempty (a ++ b)
  = if str_truthy (first_nonempty a) then first_nonempty a else first_nonempty b.
Proof.
  induction a as [|[v|] a IH]; simpl; [done| |done].
  unfold str_truthy in *. destruct (String.eqb_spec v "") as [->|Hv]; [done|].
  simpl. by destruct (String.eqb_spec v "").
Qed.

Lemma new_Set_twice l : new_Set (l ++ l) = new_Set l.
Proof.
  unfold new_Set. rewrite foldl_app. apply foldl_Set_add_known.
  intros x Hx. by apply new_Set_elem.
Qed.

Lemma overlay_fold_union rs (acc : gmap string string) :
  foldl (λ acc r, overlay acc (obj_map (specs_of r))) acc rs
  = foldl (λ acc r, overlay acc (obj_map (specs_of r))) ∅ rs ∪ acc.
Proof.
  revert acc. induction rs as [|r rs IH]; intros acc; simpl.
  - by rewrite (left_id_L ∅ (∪)).
  - rewrite IH, (IH (overlay ∅ _)). unfold overlay.
    by rewrite (right_id_L ∅ (∪)), (assoc_L (∪)).
Qed.

(** Two objects with unique keys, the same key order and the same mapping
    are the same list. *)
Lemma obj_ext (a b : Obj) :
  NoDup a.*1 → a.*1 = b.*1 →
  list_to_map a =@{gmap string string} list_to_map b → a = b.
Proof.
  revert b. induction a as [|[k v] a IH]; intros [|[k' v'] b] Hnd Hkeys Hmap;
    try done.
  rewrite !fmap_cons in Hkeys. rewrite fmap_cons in Hnd. cbn [fst] in Hkeys, Hnd.
  injection Hkeys as <- Hkeys.
  apply NoDup_cons in Hnd as [Hk Hnd]. rewrite !list_to_map_cons in Hmap.
  assert (v = v') as <-.
  { pose proof (f_equal (λ m, m !! k) Hmap) as H. cbn beta in H.
    rewrite !lookup_insert_eq in H. by injection H. }
  f_equal. apply IH; [done|done|].
  pose proof (f_equal (delete k) Hmap) as H.
  rewrite !delete_insert_id in H; [done|..];
    apply not_elem_of_list_to_map_1; [by rewrite <- Hkeys|done].
Qed.

(** X4. Merging a list of records followed by the same list again gives
    the same record as merging the list once: a second pass over the same
    inputs changes no field, no order and no specification value. *)
Theorem merge_same_inputs_twice (rs : list PartialRecord) (productName : string) :
  mergeProductData (rs ++ rs) productName = mergeProductData rs productName.
Proof.
  apply ProductRecord_eq.
  - by rewrite !mergeProductData_name.
  - unfold mergeProductData.
    rewrite !(merge_loop_scalar Price), fmap_app, first_nonempty_app. simpl.
    by destruct (str_truthy _).
  - unfold mergeProductData.
    rewrite !(merge_loop_scalar Rating), fmap_app, first_nonempty_app. simpl.
    by destruct (str_truthy _).
  - unfold mergeProductData.
    rewrite !(merge_loop_list_order Features) by apply NoDup_nil_2.
    unfold all_listed. simpl. by rewrite fmap_app, concat_app, new_Set_twice.
  - unfold mergeProductData.
    rewrite !(merge_loop_scalar Description), fmap_app, first_nonempty_app. simpl.
    by destruct (str_truthy _).
  - unfold mergeProductData.
    rewrite !(merge_loop_scalar Availability), fmap_app, first_nonempty_app. simpl.
    by destruct (str_truthy _).
  - unfold mergeProductData.
    rewrite !(merge_loop_list_order Images) by apply NoDup_nil_2.
    unfold all_listed. simpl. by rewrite fmap_app, concat_app, new_Set_twice.
  - destruct (merge_loop_specifications (rs ++ rs) (merged_init productName))
      as [Hnd2 Heq2]; [simpl; apply NoDup_nil_2|].
    destruct (merge_loop_specifications rs (merged_init productName))
      as [Hnd1 Heq1]; [simpl; apply NoDup_nil_2|].
    unfold mergeProductData. apply obj_ext; [done| |].
    + rewrite !merge_loop_keys by (simpl; apply NoDup_nil_2).
      unfold all_keys. simpl. by rewrite fmap_app, concat_app, new_Set_twice.
    + rewrite <- !obj_map_unique_keys by done. rewrite Heq2, Heq1.
      rewrite foldl_app. simpl. rewrite overlay_fold_union.
      apply (idemp_L (∪)).
Qed.

(** ** Calls and draws of the aggregator *)

Lemma createIntelligentFallback_world productName w :
  (createIntelligentFallback productName w).2 = use_draw (use_draw w).
Proof.
  destruct (createIntelligentFallback_returns productName w) as (r & -> & _). done.
Qed.

Lemma scrape_one_draws productName results s w :
  random_used (scrape_one productName results s w).2
  = random_used w
    + (if throwing (scraper_runs w s productName (length (trace w))) then 2 else 0).
Proof.
  unfold scrape_one, throwing, try_catch, mbind, M_bind, scrapeProduct, logger_log. cbn.
  destruct (run_result (scraper_runs w s productName (length (trace w))))
    as [[d|]|e]; cbn; try lia.
  match goal with
  | |- context [createIntelligentFallback productName ?w0] =>
      pose proof (createIntelligentFallback_world productName w0) as Hw;
      destruct (createIntelligentFallback productName w0) as [[fb|e'] w1]
  end; simpl in Hw; subst; cbn; lia.
Qed.

Lemma exceptions_cons w w' productName s scrapers :
  trace w' = trace w ++ [SourceCall s productName] →
  scraper_runs w' = scraper_runs w →
  exceptions w productName (s :: scrapers) =
  (if throwing (scraper_runs w s productName (length (trace w))) then 1 else 0)
  + exceptions w' productName scrapers.
Proof.
  intros Ht Hs. unfold exceptions. rewrite imap_cons.
  assert (imap (source_run w productName ∘ S) scrapers
          = imap (source_run w' productName) scrapers) as ->.
  { apply imap_ext. intros i x _. unfold source_run. simpl.
    rewrite Hs, Ht, length_app. simpl. f_equal. lia. }
  unfold source_run at 1. rewrite Nat.add_0_r.
  destruct (throwing _) eqn:Hc.
  - rewrite filter_cons_True by done. done.
  - rewrite filter_cons_False; [done|]. by rewrite Hc.
Qed.

Lemma for_of_scrape_draws productName scrapers results w :
  random_used (for_of (scrape_one productName) results scrapers w).2
  = random_used w + 2 * exceptions w productName scrapers.
Proof.
  revert results w. induction scrapers as [|s scrapers IH]; intros results w.
  - unfold exceptions. simpl. lia.
  - destruct (scrape_one_returns productName results s w)
      as (results1 & w1 & Hrun1 & _ & Ht1 & Hsame1 & _).
    pose proof (scrape_one_draws productName results s w) as Hd.
    rewrite Hrun1 in Hd. simpl in Hd.
    cbn [for_of]. unfold mbind, M_bind. rewrite Hrun1, IH, Hd.
    rewrite (exceptions_cons w w1 productName s scrapers Ht1 (proj1 Hsame1)).
    destruct (throwing _); lia.
Qed.

(** X5. The aggregator asks every scraper exactly once, in the order of the
    list, whatever the earlier ones did (an exception does not end the
    loop), and calls nothing else; it takes two random draws for each
    fallback record it makes: one record per scraper that throws, plus one
    when nothing at all was collected. *)
Theorem aggregator_calls_and_draws (productName : string) (scrapers : list Method)
    (w : World) :
  ∃ merged w',
    scrapeProductDataWithFallback productName scrapers w = (Ok merged, w')
    ∧ trace w' = trace w ++ ((λ s, SourceCall s productName) <$> scrapers)
    ∧ random_used w' =
        random_used w
        + 2 * (exceptions w productName scrapers
               + (if decide (contributions w productName scrapers = 0) then 1 else 0)).
Proof.
  destruct (for_of_scrape_returns productName scrapers [] w)
    as (results & w1 & Hloop & Ht & _ & Hlen & _).
  pose proof (for_of_scrape_draws productName scrapers [] w) as Hd.
  rewrite Hloop in Hd. simpl in Hd, Hlen.
  unfold scrapeProductDataWithFallback, collect_results, mbind, M_bind.
  rewrite Hloop.
  destruct (decide (length results = 0)) as [Hz|Hnz].
  - unfold logger_log. cbn.
    match goal with
    | |- context [createIntelligentFallback productName ?w0] =>
        destruct (createIntelligentFallback_returns productName w0) as (fb & Hfb & _);
        rewrite Hfb
    end.
    eexists _, _. split; [reflexivity|]. cbn. split; [done|].
    rewrite decide_True by lia. lia.
  - eexists _, _. split; [reflexivity|]. split; [done|].
    rewrite decide_False by lia. lia.
Qed.

(** ** The record made of fallback data only *)

Lemma str_truthy_append a c b : str_truthy (a +:+ String c b) = true.
Proof. by destruct a. Qed.

Lemma is_fallback_populated productName fb :
  is_fallback productName fb →
  truthy (p_price fb) = true ∧ truthy (p_rating fb) = true
  ∧ truthy (p_description fb) = true ∧ truthy (p_availability fb) = true
  ∧ p_images fb = None
  ∧ p_specifications fb
    = Some (category_specifications (category productName) productName).
Proof.
  intros [w Hw]. unfold createIntelligentFallback, category in *.
  destruct (isPhone productName); [|destruct (isLaptop productName)];
    injection Hw as <-; cbn [p_price p_rating p_description p_availability
                              p_images p_specifications truthy];
    split_and!; try reflexivity; apply str_truthy_append.
Qed.

Lemma first_nonempty_head v vs :
  truthy v = true → first_nonempty (v :: vs) = default "" v.
Proof.
  destruct v as [s|]; [|done]. simpl. unfold str_truthy.
  by destruct (String.eqb_spec s "").
Qed.

Lemma category_specifications_keys c productName :
  NoDup (category_specifications c productName).*1.
Proof. destruct c; apply (bool_decide_unpack _); by vm_compute. Qed.

Lemma spread2_same (a T : Obj) :
  NoDup T.*1 → a = [] ∨ a = T → spread2 a T = T.
Proof.
  intros HT Ha. apply obj_ext; [apply spread2_NoDup| |].
  - rewrite spread2_keys. destruct Ha as [-> | ->].
    + simpl. by apply new_Set_fixed.
    + by rewrite new_Set_twice, new_Set_fixed.
  - rewrite <- (obj_map_unique_keys (spread2 a T)) by apply spread2_NoDup.
    rewrite obj_map_spread2. unfold overlay.
    rewrite <- (obj_map_unique_keys T) by done. destruct Ha as [-> | ->].
    + unfold obj_map at 2. simpl. by rewrite (right_id_L ∅ (∪)).
    + apply (idemp_L (∪)).
Qed.

Lemma merge_loop_same_specifications (T : Obj) rs m :
  NoDup T.*1 →
  (∀ r, r ∈ rs → p_specifications r = Some T) →
  specifications m = [] ∨ specifications m = T →
  rs ≠ [] ∨ specifications m = T →
  specifications (foldl merge_result m rs) = T.
Proof.
  intros HT. revert m. induction rs as [|r rs IH]; intros m Hall Hm Hne; simpl.
  - by destruct Hne.
  - assert (specifications (merge_result m r) = T) as Hstep.
    { rewrite merge_result_specifications, (Hall r) by left. by apply spread2_same. }
    apply IH; [|by right|by right]. intros r' Hr'. apply Hall. by right.
Qed.

Lemma merge_loop_no_list f rs m :
  (∀ r, r ∈ rs → list_in f r = None) →
  list_out f (foldl merge_result m rs) = list_out f m.
Proof.
  revert m. induction rs as [|r rs IH]; intros m Hall; simpl; [done|].
  rewrite IH by (intros r' Hr'; apply Hall; by right).
  by rewrite merge_result_list, (Hall r) by left.
Qed.

(** X6. When every scraper fails (throws or answers with nothing), the
    record the aggregator returns is made of fallback data only and is
    fully populated: price, rating, description and availability are those
    of one fallback-generator record for the name and are not empty, the
    specifications are the template of the name's category, and there are
    no images. *)
Theorem all_sources_failing_gives_populated_record (productName : string)
    (scrapers : list Method) (w : World) :
  every_source_fails w productName scrapers →
  ∃ merged w' fallback,
    scrapeProductDataWithFallback productName scrapers w = (Ok merged, w')
    ∧ is_fallback productName fallback
    ∧ (∀ f, scalar_out f merged = default "" (scalar_in f fallback)
            ∧ scalar_out f merged ≠ "")
    ∧ specifications merged
      = category_specifications (category productName) productName
    ∧ images merged = [].
Proof.
  intros Hfail.
  destruct (collect_results_returns productName scrapers w)
    as (results & w' & Hrun & Hne & _ & _ & _ & _ & _ & Hprov).
  assert (∀ r, r ∈ results → is_fallback productName r) as Hall.
  { intros r Hr. destruct (Hprov r Hr) as [?|(i & s & Hi & Hres)]; [done|].
    by destruct (Hfail i s r Hi). }
  destruct results as [|fb results]; [done|].
  assert (is_fallback productName fb) as Hfb by (apply Hall; left).
  exists (mergeProductData (fb :: results) productName), w', fb.
  split_and!.
  - unfold scrapeProductDataWithFallback, mbind, M_bind. by rewrite Hrun.
  - done.
  - intros f.
    assert (truthy (scalar_in f fb) = true) as Ht.
    { destruct (is_fallback_populated productName fb Hfb) as (? & ? & ? & ? & _).
      by destruct f. }
    assert (scalar_out f (mergeProductData (fb :: results) productName)
            = default "" (scalar_in f fb)) as ->.
    { unfold mergeProductData. rewrite merge_loop_scalar.
      assert (str_truthy (scalar_out f (merged_init productName)) = false) as ->
        by (by destruct f).
      rewrite fmap_cons. by apply first_nonempty_head. }
    split; [done|]. destruct (scalar_in f fb) as [v|]; [|done].
    by apply str_truthy_true.
  - apply merge_loop_same_specifications;
      [apply category_specifications_keys| |by left|by left].
    intros r Hr. by apply (is_fallback_populated productName r), Hall.
  - unfold mergeProductData. rewrite (merge_loop_no_list Images); [done|].
    intros r Hr. by apply (is_fallback_populated productName r), Hall.
Qed.

Lemma all_sources_failing_gives_populated_record_witness :
  ∃ merged w',
    scrapeProductDataWithFallback "ThinkPad X1 Carbon" [Scrapybara; Puppeteer] busy_world
    = (Ok merged, w')
    ∧ price merged ≠ ""
    ∧ specifications merged = laptop_specifications.
Proof.
  destruct (all_sources_failing_gives_populated_record
              "ThinkPad X1 Carbon" [Scrapybara; Puppeteer] busy_world)
    as (merged & w' & fb & Hrun & _ & Hscalar & Hspec & _).
  { intros i s d _. simpl. discriminate. }
  exists merged, w'. split; [exact Hrun|]. split.
  - apply (Hscalar Price).
  - exact Hspec.
Defined.

(** ** The handler, stage by stage *)

Lemma POST_pipeline req w :
  truthy (product1 req) = true → truthy (product2 req) = true →
  key_missing (OPENAI_API_KEY w) = false →
  searchable (methods req) →
  selected_scrapers (methods req) ≠ [] →
  ∃ d1 w1 d2 w2 c w3 r w4,
    scrapeProductDataWithFallback (default "" (product1 req))
      (selected_scrapers (methods req)) (add_logs [comparison_start_entry req] w)
    = (Ok d1, w1)
    ∧ scrapeProductDataWithFallback (default "" (product2 req))
        (selected_scrapers (methods req)) w1
      = (Ok d2, w2)
    ∧ generateComparisonWithFallback d1 d2 (add_logs [automation_entry d1 d2] w2)
      = (Ok c, w3)
    ∧ generateReadmeWithFallback d1 d2 c w3 = (Ok r, w4)
    ∧ POST (Json req) w
      = (Ok {| status := 200; body := ComparisonResult d1 d2 c r (logs w4) |},
         add_logs [completion_entry] w4).
Proof.
  intros H1 H2 Hk Hs Hsel.
  destruct (scrapeProductDataWithFallback_returns (default "" (product1 req))
              (selected_scrapers (methods req)) (add_logs [comparison_start_entry req] w))
    as (rs1 & w1 & _ & Hrun1 & _).
  destruct (scrapeProductDataWithFallback_returns (default "" (product2 req))
              (selected_scrapers (methods req)) w1)
    as (rs2 & w2 & _ & Hrun2 & _).
  set (d1 := mergeProductData rs1 (default "" (product1 req))) in *.
  set (d2 := mergeProductData rs2 (default "" (product2 req))) in *.
  destruct (generateComparisonWithFallback_returns d1 d2
              (add_logs [automation_entry d1 d2] w2)) as (c & w3 & Hrun3 & _).
  destruct (generateReadmeWithFallback_returns d1 d2 c w3) as (r & w4 & Hrun4 & _).
  exists d1, w1, d2, w2, c, w3, r, w4. split_and!; try done.
  unfold POST, try_catch, mbind, M_bind.
  cbn [request_json mret M_ret env_OPENAI_API_KEY].
  rewrite H1, H2. cbn [negb orb]. rewrite Hk.
  unfold logger_log at 1.
  rewrite !(methods_includes_searchable _ _ _ Hs).
  match goal with
  | |- context [length ?l = 0] =>
      assert (l = selected_scrapers (methods req)) as Hl
        by (unfold selected_scrapers;
            destruct (has_method (methods req) "scrapybara"),
                     (has_method (methods req) "playwright"),
                     (has_method (methods req) "puppeteer"); reflexivity);
      rewrite !Hl; clear Hl
  end.
  rewrite decide_False by (by intros ?%nil_length_inv).
  fold (comparison_start_entry req).
  rewrite Hrun1, Hrun2. unfold logger_log at 1.
  fold (automation_entry d1 d2). rewrite Hrun3, Hrun4. reflexivity.
Qed.

Lemma has_method_requested v s :
  searchable v → has_method v (method_id s) = true ↔ requested v s.
Proof.
  destruct v as [| | | |text|items|]; try done; intros _; simpl.
  - apply includes_spec.
  - rewrite existsb_exists. split.
    + intros (item & Hin & Hitem). destruct item; try done.
      apply String.eqb_eq in Hitem as ->. by apply list_elem_of_In.
    + intros Hin. exists (VStr (method_id s)). split; [by apply list_elem_of_In|].
      apply String.eqb_refl.
Qed.

Lemma selected_scrapers_spec v :
  searchable v →
  (∀ s, s ∈ selected_scrapers v ↔ requested v s)
  ∧ selected_scrapers v `sublist_of` [Scrapybara; Playwright; Puppeteer].
Proof.
  intros Hs. split.
  - intros s. rewrite <- (has_method_requested v s Hs). unfold selected_scrapers.
    destruct s; simpl;
      destruct (has_method v "scrapybara"), (has_method v "playwright"),
               (has_method v "puppeteer"); simpl; split; intros H; try done;
      repeat (apply elem_of_cons in H as [H|H]; try done);
      try (by apply elem_of_nil in H); repeat constructor.
  - unfold selected_scrapers.
    destruct (has_method v "scrapybara"), (has_method v "playwright"),
             (has_method v "puppeteer"); simpl; repeat constructor.
Qed.

(** Every way the handler can go, with the answer and the world it leaves. *)
Lemma POST_cases request w :
  (∃ e, request = Malformed e
        ∧ POST request w
          = (Ok (failure_response e (logs w ++ [failure_entry e])),
             add_logs [failure_entry e] (add_event (ConsoleError e) w)))
  ∨ (∃ req, request = Json req
       ∧ (truthy (product1 req) = false ∨ truthy (product2 req) = false)
       ∧ POST request w = (Ok names_required_response, w))
  ∨ (∃ req, request = Json req
       ∧ truthy (product1 req) = true ∧ truthy (product2 req) = true
       ∧ ((key_missing (OPENAI_API_KEY w) = true
           ∧ POST request w = (Ok configuration_response, add_logs [key_entry] w))
          ∨ (key_missing (OPENAI_API_KEY w) = false
             ∧ ((¬ searchable (methods req)
                 ∧ ∃ e, POST request w
                        = (Ok (failure_response e
                                 (logs w ++ [comparison_start_entry req; failure_entry e])),
                           add_logs [failure_entry e]
                             (add_event (ConsoleError e)
                                (add_logs [comparison_start_entry req] w))))
                ∨ (searchable (methods req)
                   ∧ selected_scrapers (methods req) = []
                   ∧ POST request w
                     = (Ok no_methods_response, add_logs [comparison_start_entry req] w))
                ∨ (searchable (methods req)
                   ∧ selected_scrapers (methods req) ≠ []))))).
Proof.
  destruct request as [e|req].
  { left. exists e. split; [done|]. apply POST_malformed. }
  right.
  destruct (truthy (product1 req)) eqn:H1; cycle 1.
  { left. exists req. split_and!; [done|by left|]. apply POST_names_required. by left. }
  destruct (truthy (product2 req)) eqn:H2; cycle 1.
  { left. exists req. split_and!; [done|by right|]. apply POST_names_required. by right. }
  right. exists req. split_and!; try done.
  destruct (key_missing (OPENAI_API_KEY w)) eqn:Hk.
  { left. split; [done|]. by apply POST_unconfigured. }
  right. split; [done|].
  assert (searchable (methods req) ∨ ¬ searchable (methods req)) as [Hs|Hs]
    by (destruct (methods req); simpl; tauto).
  - right. destruct (POST_searchable req w H1 H2 Hk Hs) as [[Hsel Hrun]|[Hsel _]].
    + left. done.
    + right. done.
  - left. split; [done|].
    destruct (POST_unsearchable req w H1 H2 Hk Hs) as (e & _ & Hrun). by exists e.
Qed.

Lemma accepted_selected req :
  searchable (methods req) →
  (∃ s, requested (methods req) s) ↔ selected_scrapers (methods req) ≠ [].
Proof.
  intros Hs. destruct (selected_scrapers_spec _ Hs) as [Hmem _]. split.
  - intros [s Hreq%Hmem] Hnil. rewrite Hnil in Hreq. by apply elem_of_nil in Hreq.
  - intros Hne. destruct (selected_scrapers (methods req)) as [|s l] eqn:E; [done|].
    exists s. apply Hmem. left.
Qed.

Lemma requested_searchable v s : requested v s → searchable v.
Proof. by destruct v. Qed.





(** ** Rejections *)

(** X9. The checks come in a fixed order and a rejected request does
    nothing else.  A request lacking a product name is answered with the
    client error and leaves the world exactly as it was (no log entry),
    whatever the credential and whatever [methods] is.  A request with both
    names but no configured credential is answered with the configuration
    error whatever [methods] is (even a value the membership test would
    throw on), and the only change is one error entry in the log. *)
Theorem rejections_in_order (req : Request) (w : World) :
  (truthy (product1 req) = false ∨ truthy (product2 req) = false →
     POST (Json req) w = (Ok names_required_response, w))
  ∧ (truthy (product1 req) = true → truthy (product2 req) = true →
     key_missing (OPENAI_API_KEY w) = true →
     POST (Json req) w = (Ok configuration_response, add_logs [key_entry] w)
     ∧ status configuration_response = 500
     ∧ level key_entry = LError).
Proof.
  split.
  - apply POST_names_required.
  - intros H1 H2 Hk. split; [by apply POST_unconfigured|done].
Qed.

Lemma rejections_in_order_witness :
  POST (Json lamps_missing_methods) failing_world_with_lamp
  = (Ok configuration_response, add_logs [key_entry] failing_world_with_lamp).
Proof.
  destruct (rejections_in_order lamps_missing_methods failing_world_with_lamp)
    as [_ Hkey].
  destruct (Hkey eq_refl eq_refl eq_refl) as [Hrun _]. exact Hrun.
Defined.

(** ** The credential check *)

Lemma trim_start_empty s : trim_start s = "" ↔ all_space s.
Proof.
  unfold all_space. induction s as [|c s IH]; simpl.
  - split; [|done]. intros _ c Hc. by apply elem_of_nil in Hc.
  - destruct (is_space c) eqn:Hc.
    + rewrite IH. split.
      * intros H c' [->|Hc']%elem_of_cons; auto.
      * intros H c' Hc'. apply H. by right.
    + split; [done|]. intros H. specialize (H c). rewrite Hc in H.
      discriminate H. left.
Qed.

Lemma all_space_trim_start s : all_space (trim_start s) ↔ all_space s.
Proof.
  unfold all_space. induction s as [|c s IH]; simpl; [done|].
  destruct (is_space c) eqn:Hc; [|done].
  rewrite IH. split.
  - intros H c' [->|Hc']%elem_of_cons; auto.
  - intros H c' Hc'. apply H. by right.
Qed.

Lemma string_rev_empty s : string_rev s = "" ↔ s = "".
Proof.
  split; [|by intros ->]. unfold string_rev. destruct s as [|c s]; [done|].
  simpl. rewrite reverse_cons.
  destruct (reverse (String.list_ascii_of_string s)); done.
Qed.

Lemma all_space_string_rev s : all_space (string_rev s) ↔ all_space s.
Proof.
  unfold all_space, string_rev.
  rewrite String.list_ascii_of_string_of_list_ascii.
  split; intros H c Hc; apply H; by apply elem_of_reverse.
Qed.

Lemma trim_empty s : trim s = "" ↔ all_space s.
Proof.
  unfold trim.
  by rewrite string_rev_empty, trim_start_empty, all_space_string_rev,
    all_space_trim_start.
Qed.



(** ** The answer without the language model *)

Lemma same_collaborators_model w w' :
  same_collaborators w w' → model_unavailable w → model_unavailable w'.
Proof. intros (_ & Hm & _) H req i. rewrite Hm. apply H. Qed.



(** ** Keywords and letter case *)

Lemma contains_iphone_phone s : contains s "iphone" → contains s "phone".
Proof.
  intros (x & y & ->). exists (x +:+ "i"), y. by rewrite append_assoc.
Qed.

Lemma lower_ascii_idemp c : lower_ascii (lower_ascii c) = lower_ascii c.
Proof.
  destruct c as [[] [] [] [] [] [] [] []]; reflexivity.
Qed.

Lemma toLowerCase_idemp s : toLowerCase (toLowerCase s) = toLowerCase s.
Proof.
  induction s as [|c s IH]; simpl; [done|]. by rewrite lower_ascii_idemp, IH.
Qed.



(** ** The session manager *)

Lemma sweep_keeps_none now (l : list (string * SessionManager.Session))
    (acc : gmap string SessionManager.Session) k :
  acc !! k = None →
  foldl (λ acc entry,
           if decide (now - SessionManager.startTime entry.2 > SessionManager.max_age)%Z
           then base.delete entry.1 acc else acc) acc l !! k = None.
Proof.
  revert acc. induction l as [|[id s] l IH]; intros acc Hk; simpl; [done|].
  apply IH. case_decide; [|done]. rewrite lookup_delete. by case_decide.
Qed.

Lemma sweep_deletes now (l : list (string * SessionManager.Session))
    (acc : gmap string SessionManager.Session) k s :
  (k, s) ∈ l → expired now s →
  foldl (λ acc entry,
           if decide (now - SessionManager.startTime entry.2 > SessionManager.max_age)%Z
           then base.delete entry.1 acc else acc) acc l !! k = None.
Proof.
  revert acc. induction l as [|[id s'] l IH]; intros acc Hin Hexp;
    [by apply elem_of_nil in Hin|].
  apply elem_of_cons in Hin as [[= <- <-]|Hin]; simpl.
  - apply sweep_keeps_none. rewrite decide_True by done. apply lookup_delete_eq.
  - by apply IH.
Qed.

Lemma sweep_keeps now (l : list (string * SessionManager.Session))
    (acc : gmap string SessionManager.Session) k :
  (∀ s, (k, s) ∈ l → ¬ expired now s) →
  foldl (λ acc entry,
           if decide (now - SessionManager.startTime entry.2 > SessionManager.max_age)%Z
           then base.delete entry.1 acc else acc) acc l !! k = acc !! k.
Proof.
  revert acc. induction l as [|[id s'] l IH]; intros acc Hall; simpl; [done|].
  rewrite IH by (intros s Hs; apply Hall; by right).
  case_decide as Hexp; [|done].
  apply lookup_delete_ne. intros ->. apply (Hall s'); [left|done].
Qed.

Lemma cleanup_lookup now (sessions : gmap string SessionManager.Session) id :
  SessionManager.get id (SessionManager.cleanup now sessions)
  = match SessionManager.get id sessions with
    | Some session => if decide (expired now session) then None else Some session
    | None => None
    end.
Proof.
  unfold SessionManager.get, SessionManager.cleanup.
  destruct (sessions !! id) as [s|] eqn:E.
  - case_decide as Hexp.
    + apply (sweep_deletes now _ _ id s); [|done]. by apply elem_of_map_to_list.
    + rewrite sweep_keeps; [done|].
      intros s' Hs'%elem_of_map_to_list. congruence.
  - by apply sweep_keeps_none.
Qed.

(** X13. The session store is a finite map: a session set under an
    identifier is the one got back and replaces an earlier one, other
    identifiers are not affected; [has] tells whether [get] finds a session;
    [delete] reports whether the identifier was present, removes it and
    nothing else; the size grows by one exactly when a new identifier is
    set, drops by one exactly when a present one is deleted, and is zero
    after [clear]. *)
Theorem session_store_laws (sessions : gmap string SessionManager.Session)
    (id : string) (session : SessionManager.Session) :
  SessionManager.get id (SessionManager.set id session sessions) = Some session
  ∧ (∀ other, other ≠ id →
       SessionManager.get other (SessionManager.set id session sessions)
       = SessionManager.get other sessions
       ∧ SessionManager.get other (SessionManager.delete id sessions).2
         = SessionManager.get other sessions)
  ∧ (SessionManager.has id sessions = true ↔
       ∃ found, SessionManager.get id sessions = Some found)
  ∧ (SessionManager.delete id sessions).1 = SessionManager.has id sessions
  ∧ SessionManager.get id (SessionManager.delete id sessions).2 = None
  ∧ SessionManager.size (SessionManager.set id session sessions)
    = (if SessionManager.has id sessions then SessionManager.size sessions
       else S (SessionManager.size sessions))
  ∧ SessionManager.size (SessionManager.delete id sessions).2
    = (if SessionManager.has id sessions then pred (SessionManager.size sessions)
       else SessionManager.size sessions)
  ∧ SessionManager.size (SessionManager.clear sessions) = 0.
Proof.
  unfold SessionManager.get, SessionManager.set, SessionManager.delete,
    SessionManager.has, SessionManager.size, SessionManager.clear. simpl.
  split_and!.
  - apply lookup_insert_eq.
  - intros other Hne. split; [by apply lookup_insert_ne|by apply lookup_delete_ne].
  - rewrite bool_decide_eq_true. done.
  - done.
  - apply lookup_delete_eq.
  - case_bool_decide as Hin.
    + by apply map_size_insert_Some.
    + apply map_size_insert_None. by apply eq_None_not_Some.
  - case_bool_decide as Hin.
    + rewrite map_size_delete_Some by done. lia.
    + rewrite delete_id; [done|]. by apply eq_None_not_Some.
  - apply map_size_empty.
Qed.

Lemma session_store_laws_witness :
  SessionManager.get "b"
    (SessionManager.set "a"
       {| SessionManager.startTime := 0; SessionManager.details := VNull |}
       (SessionManager.set "b"
          {| SessionManager.startTime := 5; SessionManager.details := VNull |} ∅))
  = Some {| SessionManager.startTime := 5; SessionManager.details := VNull |}.
Proof.
  destruct (session_store_laws
              (SessionManager.set "b"
                 {| SessionManager.startTime := 5; SessionManager.details := VNull |} ∅)
              "a" {| SessionManager.startTime := 0; SessionManager.details := VNull |})
    as (_ & Hother & _).
  destruct (Hother "b") as [-> _]; [done|].
  destruct (session_store_laws ∅ "b"
              {| SessionManager.startTime := 5; SessionManager.details := VNull |})
    as (Hget & _).
  exact Hget.
Defined.

(** X14. A sweep at time [now] removes exactly the sessions started more
    than thirty minutes (1 800 000 ms) before [now] and leaves every other
    session as it was: a session exactly thirty minutes old is kept, every
    session still present after the sweep is at most thirty minutes old,
    and the store never grows. *)
Theorem cleanup_removes_exactly_expired (now : Z)
    (sessions : gmap string SessionManager.Session) :
  (∀ id,
     SessionManager.get id (SessionManager.cleanup now sessions)
     = match SessionManager.get id sessions with
       | Some session => if decide (expired now session) then None else Some session
       | None => None
       end)
  ∧ (∀ id session,
       SessionManager.get id (SessionManager.cleanup now sessions) = Some session →
       SessionManager.get id sessions = Some session
       ∧ (now - SessionManager.startTime session ≤ 1800000)%Z)
  ∧ (∀ id session,
       SessionManager.get id sessions = Some session →
       (now - SessionManager.startTime session ≤ 1800000)%Z →
       SessionManager.get id (SessionManager.cleanup now sessions) = Some session)
  ∧ SessionManager.size (SessionManager.cleanup now sessions)
    ≤ SessionManager.size sessions.
Proof.
  split_and!.
  - intros id. apply cleanup_lookup.
  - intros id session. rewrite cleanup_lookup.
    destruct (SessionManager.get id sessions) as [s|]; [|done].
    case_decide as Hexp; [done|]. intros [= <-]. split; [done|].
    unfold expired, SessionManager.max_age in Hexp. lia.
  - intros id session Hget Hage. rewrite cleanup_lookup, Hget.
    rewrite decide_False; [done|]. unfold expired, SessionManager.max_age. lia.
  - unfold SessionManager.size. apply map_subseteq_size, map_subseteq_spec.
    intros id session Hin.
    pose proof (cleanup_lookup now sessions id) as H.
    unfold SessionManager.get in H. rewrite Hin in H.
    destruct (sessions !! id) as [s|]; [|done]. by case_decide.
Qed.

Lemma cleanup_removes_exactly_expired_witness :
  SessionManager.get "a"
    (SessionManager.cleanup 1800000
       (SessionManager.set "a"
          {| SessionManager.startTime := 0; SessionManager.details := VNull |} ∅))
  = Some {| SessionManager.startTime := 0; SessionManager.details := VNull |}.
Proof.
  destruct (cleanup_removes_exactly_expired 1800000
              (SessionManager.set "a"
                 {| SessionManager.startTime := 0; SessionManager.details := VNull |} ∅))
    as (_ & _ & Hkeep & _).
  apply Hkeep; [apply lookup_insert_eq|simpl; lia].
Defined.

(** X15. Sweeps compose: a sweep followed by a later sweep (or one at the
    same time) leaves the same store as the later sweep alone; in particular
    sweeping twice at the same time changes nothing more. *)
Theorem cleanup_then_later_cleanup (now later : Z)
    (sessions : gmap string SessionManager.Session) :
  (now ≤ later)%Z →
  SessionManager.cleanup later (SessionManager.cleanup now sessions)
  = SessionManager.cleanup later sessions.
Proof.
  intros Hle. apply map_eq. intros id.
  pose proof (cleanup_lookup later (SessionManager.cleanup now sessions) id) as H1.
  pose proof (cleanup_lookup later sessions id) as H2.
  pose proof (cleanup_lookup now sessions id) as H3.
  unfold SessionManager.get in *. rewrite H1, H2, H3.
  destruct (sessions !! id) as [s|]; [|done].
  destruct (decide (expired now s)) as [Hnow|Hnow]; [|done].
  rewrite decide_True; [done|]. unfold expired in *. lia.
Qed.

Lemma cleanup_then_later_cleanup_witness :
  SessionManager.cleanup 2000000
    (SessionManager.cleanup 1900000
       (SessionManager.set "a"
          {| SessionManager.startTime := 0; SessionManager.details := VNull |} ∅))
  = SessionManager.cleanup 2000000
      (SessionManager.set "a"
         {| SessionManager.startTime := 0; SessionManager.details := VNull |} ∅).
Proof.
  apply cleanup_then_later_cleanup. lia.
Defined.

(** ** The analysis endpoint *)

Lemma agent_data_readable agent :
  readable_agent agent → Analyze.agent_data agent = Ok (kept_of agent).
Proof. destruct agent; try done; intros _; reflexivity. Qed.

Lemma agent_data_unreadable agent :
  ¬ readable_agent agent → ∃ e, Analyze.agent_data agent = Throw e.
Proof. destruct agent; simpl; try tauto; intros _; by eexists. Qed.

Lemma map_agents_cases items :
  (Forall readable_agent items ∧ Analyze.map_agents items = Ok (kept_of <$> items))
  ∨ (¬ Forall readable_agent items ∧ ∃ e, Analyze.map_agents items = Throw e).
Proof.
  induction items as [|agent items IH]; [left; by split|].
  assert (readable_agent agent ∨ ¬ readable_agent agent) as [Hr|Hr]
    by (destruct agent; simpl; tauto).
  - cbn [Analyze.map_agents]. rewrite (agent_data_readable agent Hr).
    destruct IH as [[Hall ->]|[Hnot [e ->]]].
    + left. split; [by constructor|done].
    + right. split; [|by exists e]. intros Hall. apply Hnot.
      by apply Forall_cons in Hall as [_ ?].
  - right. split.
    + intros Hall. by apply Forall_cons in Hall as [? _].
    + destruct (agent_data_unreadable agent Hr) as [e He]. exists e.
      cbn [Analyze.map_agents]. by rewrite He.
Qed.



(** X17. Only the eight kept properties of an agent can influence the
    answer of the analysis endpoint: two requests with the same query whose
    agents, all readable, agree one by one on those eight properties get the
    same answer and leave the same world, whatever else the agents carry. *)
Theorem analysis_ignores_other_properties (query : Value) (items items' : list Value)
    (w : Analyze.World) :
  Forall readable_agent items → Forall readable_agent items' →
  kept_of <$> items = kept_of <$> items' →
  Analyze.POST (Analyze.Parsed query (VArr items)) w
  = Analyze.POST (Analyze.Parsed query (VArr items')) w.
Proof.
  intros Hall Hall' Hkept. unfold Analyze.POST. cbn [Analyze.agents_map].
  destruct (map_agents_cases items) as [[_ ->]|[Hnot _]]; [|done].
  destruct (map_agents_cases items') as [[_ ->]|[Hnot _]]; [|done].
  by rewrite Hkept.
Qed.

Lemma analysis_ignores_other_properties_witness :
  Analyze.POST
    (Analyze.Parsed (VStr "q")
       (VArr [VObj [("name", VStr "Coder"); ("secret", VStr "token")]]))
    {| Analyze.model_runs := λ _ _ _, Ok "Coder does.";
       Analyze.asked := []; Analyze.console := [] |}
  = Analyze.POST
      (Analyze.Parsed (VStr "q") (VArr [VObj [("name", VStr "Coder")]]))
      {| Analyze.model_runs := λ _ _ _, Ok "Coder does.";
         Analyze.asked := []; Analyze.console := [] |}.
Proof.
  apply analysis_ignores_other_properties.
  - repeat constructor.
  - repeat constructor.
  - reflexivity.
Defined.

(** ** The method selection of the page *)

Lemma click_method_elem id prev x :
  x ∈ click_method false id prev ↔ (x = id ∧ id ∉ prev) ∨ (x ≠ id ∧ x ∈ prev).
Proof.
  unfold click_method. case_bool_decide as Hin.
  - rewrite list_elem_of_filter. split.
    + intros [? ?]. by right.
    + intros [[-> ?]|[? ?]]; done.
  - rewrite elem_of_app, list_elem_of_singleton. split.
    + intros [Hx | ->]; [|by left]. right. split; [|done]. by intros ->.
    + intros [[-> _]|[_ ?]]; auto.
Qed.

Lemma click_method_NoDup running id prev :
  NoDup prev → NoDup (click_method running id prev).
Proof.
  intros Hnd. unfold click_method. destruct running; [done|].
  case_bool_decide as Hin.
  - by apply NoDup_filter.
  - apply NoDup_app. split_and!; [done| |apply NoDup_singleton].
    intros x Hx ->%list_elem_of_singleton. done.
Qed.

Lemma filter_other_id (id : string) (l : list string) :
  id ∉ l → filter (λ x, x ≠ id) l = l.
Proof.
  induction l as [|a l IH]; [done|]. intros Hnot.
  apply not_elem_of_cons in Hnot as [Hne Hnot].
  rewrite filter_cons_True by (by intros ->). by rewrite IH.
Qed.

Lemma filter_other_moves_last (id : string) (l : list string) :
  NoDup l → id ∈ l → filter (λ x, x ≠ id) l ++ [id] ≡ₚ l.
Proof.
  induction l as [|a l IH]; intros Hnd Hin; [by apply elem_of_nil in Hin|].
  apply NoDup_cons in Hnd as [Ha Hnd]. destruct (decide (a = id)) as [->|Hne].
  - rewrite filter_cons_False by (by intros H; apply H).
    rewrite filter_other_id by done. by rewrite Permutation_app_comm.
  - rewrite filter_cons_True by done. simpl. f_equiv. apply IH; [done|].
    apply elem_of_cons in Hin as [->|Hin]; done.
Qed.

(** X18. A click on a method card while a comparison is running changes
    nothing.  Otherwise it flips the membership of that method in the
    selection and of no other; it never introduces a repetition, so that
    the selection, which starts without one, never has one whatever is
    clicked; and a second click on the same card restores the selection
    (exactly when the method was not selected, up to its order when it
    was, the method then standing last). *)
Theorem method_click_toggles (id : string) (prev : list string) :
  click_method true id prev = prev
  ∧ (id ∈ click_method false id prev ↔ id ∉ prev)
  ∧ (∀ other, other ≠ id → other ∈ click_method false id prev ↔ other ∈ prev)
  ∧ (NoDup prev → NoDup (click_method false id prev))
  ∧ (∀ clicks : list (bool * string),
       NoDup (foldl (λ selection click, click_method click.1 click.2 selection)
                initial_methods clicks))
  ∧ (id ∉ prev → click_method false id (click_method false id prev) = prev)
  ∧ (NoDup prev → id ∈ prev →
       click_method false id (click_method false id prev)
       = filter (λ x, x ≠ id) prev ++ [id]
       ∧ click_method false id (click_method false id prev) ≡ₚ prev).
Proof.
  split_and!.
  - done.
  - rewrite click_method_elem. split; [intros [[_ ?]|[? _]]; done|auto].
  - intros other Hne. rewrite click_method_elem. split.
    + intros [[? _]|[_ ?]]; done.
    + auto.
  - apply click_method_NoDup.
  - intros clicks.
    assert (∀ selection, NoDup selection →
              NoDup (foldl (λ selection click, click_method click.1 click.2 selection)
                       selection clicks)) as H.
    { induction clicks as [|click clicks IH]; intros selection Hnd; simpl; [done|].
      by apply IH, click_method_NoDup. }
    apply H. apply (bool_decide_unpack _). by vm_compute.
  - intros Hnot. unfold click_method at 2. rewrite bool_decide_eq_false_2 by done.
    unfold click_method. rewrite bool_decide_eq_true_2 by set_solver.
    rewrite filter_app, filter_cons_False, filter_nil by (by intros H; apply H).
    rewrite (right_id_L [] (++)). by apply filter_other_id.
  - intros Hnd Hin.
    assert (click_method false id (click_method false id prev)
            = filter (λ x, x ≠ id) prev ++ [id]) as ->.
    { unfold click_method at 2. rewrite bool_decide_eq_true_2 by done.
      unfold click_method. rewrite bool_decide_eq_false_2; [done|].
      rewrite list_elem_of_filter. by intros [H _]. }
    split; [done|]. by apply filter_other_moves_last.
Qed.

Lemma method_click_toggles_witness :
  click_method false "puppeteer" (click_method false "puppeteer" initial_methods)
  = initial_methods
  ∧ click_method false "playwright" (click_method false "playwright" initial_methods)
    ≡ₚ initial_methods.
Proof.
  pose proof (method_click_toggles "puppeteer" initial_methods)
    as (_ & _ & _ & _ & _ & Hout & _).
  pose proof (method_click_toggles "playwright" initial_methods)
    as (_ & _ & _ & _ & _ & _ & Hin).
  split.
  - apply Hout. apply (bool_decide_unpack _). by vm_compute.
  - apply Hin.
    + apply (bool_decide_unpack _). by vm_compute.
    + apply (bool_decide_unpack _). by vm_compute.
Defined.
